(** * parexec: sequential chains of shell commands run by a pool of workers

    A verification development for [main.go].  The program reads
    [config.yaml], turns every [execdata] block into an [execData] (a list of
    closures built by [buildFunc]), starts [runtime.NumCPU()] goroutines
    running [executor], hands every [*execData] to them over an unbuffered
    channel, closes the channel and waits on a [sync.WaitGroup].

    The file has three parts:
    - the data model and the sequential code ([buildFunc], [processConfig]);
    - an interleaving semantics of [main] and its [executor] goroutines
      (one transition per effect of the source: spawn of a goroutine, channel
      hand-off, close, call of a closure, write to standard output, run of an
      external command, [wg.Done], return of [wg.Wait]), as a relation and as
      a function of a schedule;
    - the properties: an invariant of every execution, progress and
      termination, and from them the statements of the specification. *)

From Stdlib Require Import ZArith Lia String Ascii.
From Stdlib.Strings Require Import Byte.
From Stdlib Require Import Relations Wellfounded.
From stdpp Require Import base tactics option list.

Local Open Scope string_scope.
Local Open Scope list_scope.

(** String concatenation is written [+:+]; [++] is kept for lists. *)
Local Infix "+:+" := String.append (at level 60, right associativity).

(** ** Basic types *)

(** A Go [error] value is only ever printed by this program, so it is
    represented by the text its [Error()] method returns; [None] is [nil]. *)
Definition error := string.

(** [[]byte] *)
Definition bytes := list byte.

(** The line feed written by [fmt.Println] and by the ["\n"] of the format
    string of [fmt.Printf]. *)
Definition nl : string := String (ascii_of_nat 10) EmptyString.

(** [type cli struct { command string; args []string }] *)
Record cli := { command : string; args : list string }.

(** ** Effects of a closure

    An [execfunc] is a [func() error].  The closures of this program write to
    standard output and run external commands; a closure is represented by the
    tree of the effects it performs, the continuation of [Run] receiving what
    [cmd.Run()] left in the [bytes.Buffer] wired to [cmd.Stdout] and the error
    it returned. *)
Inductive prog (R : Type) : Type :=
| Ret (r : R)
| Write (s : string) (k : prog R)
| Run (c : string) (a : list string) (k : string -> option error -> prog R).

Arguments Ret {R} r.
Arguments Write {R} s k.
Arguments Run {R} c a k.

(** [type execfunc func() error] *)
Definition execfunc := prog (option error).

(** [type execData struct { fs []execfunc }] *)
Record execData := { fs : list execfunc }.

(** [*execData]: the address of an [execData] in the store of allocated
    ones.  Addresses are handed out in allocation order. *)
Abbreviation ptr := nat (only parsing).
Abbreviation heap := (list execData) (only parsing).

(** ** The decoded configuration *)

(** [type functionMeta struct { Name, Cmd string; Args []string }] *)
Record functionMeta := { Name : string; Cmd : string; Args : list string }.

(** [type execdataMeta struct { Funcs []functionMeta `yaml:"execdata"` }] *)
Record execdataMeta := { Funcs : list functionMeta }.

(** [type functionsMeta struct { Ex []execdataMeta `yaml:"functions"` }] *)
Record functionsMeta := { Ex : list execdataMeta }.

(** *** The YAML document

    [yaml.Unmarshal] is a library call.  Its input is represented after
    parsing, as the mapping nodes the struct tags of the three [...Meta] types
    select: every key may be present or absent.  Filling a struct leaves the
    field of an absent key at the value it had, which for the fresh
    [functionsMeta{}] of [processConfig] and for the elements of a decoded
    sequence is the zero value of the field's type. *)
Record functionNode := {
  key_name : option string;
  key_cmd : option string;
  key_args : option (list string) }.

Record execdataNode := { key_execdata : option (list functionNode) }.

Record document := { key_functions : option (list execdataNode) }.

Definition fill_string (field : string) (key : option string) : string :=
  match key with Some s => s | None => field end.

Definition fill_slice {A B} (dec : A -> B) (field : list B) (key : option (list A)) : list B :=
  match key with Some l => map dec l | None => field end.

Definition decode_functionMeta (n : functionNode) : functionMeta :=
  {| Name := fill_string "" (key_name n);
     Cmd := fill_string "" (key_cmd n);
     Args := fill_slice id [] (key_args n) |}.

Definition decode_execdataMeta (n : execdataNode) : execdataMeta :=
  {| Funcs := fill_slice decode_functionMeta [] (key_execdata n) |}.

Definition decode_functionsMeta (d : document) (f : functionsMeta) : functionsMeta :=
  {| Ex := fill_slice decode_execdataMeta (Ex f) (key_functions d) |}.

(** *** The environment of [processConfig]

    [ReadFile] is [ioutil.ReadFile]: the content and the error it returns for
    a path.  [yaml_parse] is the parser of [yaml.Unmarshal]: the document a
    text denotes, or the error for a text that is not YAML or whose nodes do
    not have the shape of the target struct. *)
Record Env := {
  ReadFile : string -> bytes * option error;
  yaml_parse : bytes -> document + error }.

(** [func readYaml(path string) ([]byte, error)] *)
Definition readYaml (E : Env) (path : string) : bytes * option error :=
  let (content, err) := ReadFile E path in
  match err with
  | Some e => (content, Some e)
  | None => (content, None)
  end.

(** [yaml.Unmarshal(c, &f)]: the struct after the call and the error. *)
Definition Unmarshal (E : Env) (c : bytes) (f : functionsMeta) : functionsMeta * option error :=
  match yaml_parse E c with
  | inl d => (decode_functionsMeta d f, None)
  | inr e => (f, Some e)
  end.

(** ** Building the closures *)

(** [func buildFunc(clargs *cli) execfunc].  The [cli] behind [clargs] is
    never written after its allocation, so the closure is given its value. *)
Definition buildFunc (clargs : cli) : execfunc :=
  Write ("executing " +:+ command clargs +:+ nl)
    (Run (command clargs) (args clargs) (fun out err =>
       match err with
       | Some e => Ret (Some e)
       | None => Write (out +:+ nl) (Ret None)
       end)).

(** [func newexecData() *execData]: a fresh address and the store with the
    empty [execData] behind it. *)
Definition newexecData (h : heap) : ptr * heap :=
  (length h, h ++ [ {| fs := [] |} ]).

(** [func (e *execData) add(fs execfunc)]: [e.fs = append(e.fs, fs)] through
    the pointer.  (A pointer outside the store does not occur: every [e] comes
    from [newexecData].) *)
Definition add (e : ptr) (f : execfunc) (h : heap) : heap :=
  alter (fun d => {| fs := fs d ++ [f] |}) e h.

(** The inner loop of [processConfig]: [for _, f := range r.Funcs]. *)
Fixpoint range_Funcs (eData : ptr) (funcs : list functionMeta) (h : heap) : heap :=
  match funcs with
  | [] => h
  | f :: rest =>
      let clargs := {| command := Cmd f; args := Args f |} in
      let fc := buildFunc clargs in
      range_Funcs eData rest (add eData fc h)
  end.

(** The outer loop of [processConfig]: [for _, r := range f.Ex]. *)
Fixpoint range_Ex (ex : list execdataMeta) (dataExec : list ptr) (h : heap) : list ptr * heap :=
  match ex with
  | [] => (dataExec, h)
  | r :: rest =>
      let (eData, h1) := newexecData h in
      let h2 := range_Funcs eData (Funcs r) h1 in
      range_Ex rest (dataExec ++ [eData]) h2
  end.

(** The two ways [processConfig] ends: [log.Fatal]/[log.Fatalf], which write
    the message to the logger and call [os.Exit(1)], or a [return]. *)
Inductive outcome (A : Type) : Type :=
| Fatal (msg : string)
| Return (a : A).

Arguments Fatal {A} msg.
Arguments Return {A} a.

(** [func processConfig(config string) []*execData], run on a store [h]. *)
Definition processConfig (E : Env) (config : string) (h : heap) : outcome (list ptr * heap) :=
  let (c, err) := readYaml E "config.yaml" in
  match err with
  | Some e => Fatal e
  | None =>
      let f := {| Ex := [] |} in
      let (f, err) := Unmarshal E c f in
      match err with
      | Some e => Fatal ("Error decoding yaml file " +:+ e)
      | None => Return (range_Ex (Ex f) [] h)
      end
  end.

(** ** What a closure does, run on its own

    [interp] runs the effects of a closure against an operating system
    [exec_Run], a state machine that answers every [cmd.Run()] with the
    captured standard output and the error.  The result is the list of
    observable events, the returned value and the state the operating system
    is left in. *)
Inductive event :=
| Stdout (s : string)
| Spawn (c : string) (a : list string).

Section Interp.
Variable OS : Type.
Variable exec_Run : string -> list string -> OS -> string * option error * OS.

Fixpoint interp {R} (p : prog R) (os : OS) : list event * R * OS :=
  match p with
  | Ret r => ([], r, os)
  | Write s k =>
      let '(evs, r, os') := interp k os in
      (Stdout s :: evs, r, os')
  | Run c a k =>
      let '(out, err, os1) := exec_Run c a os in
      let '(evs, r, os') := interp (k out err) os1 in
      (Spawn c a :: evs, r, os')
  end.
End Interp.

Arguments interp {OS} exec_Run {R} p os.

(** ** The process: [main] and its goroutines

    The state of the running process.  Every transition below is one effect
    of the source; goroutines interleave between any two of them. *)

(** Where [main] is. *)
Inductive mstate :=
| MConfig
    (** [eds := processConfig("config.yaml")] *)
| MLoops (i : nat) (rest : list ptr)
    (** the two loops of [main]: [i] goroutines started by
        [for i := 0; i < workers; i++], [rest] still to be sent by
        [for _, ed := range eds] *)
| MWait
    (** [wg.Wait()] *)
| MExit (code : nat)
    (** the process is gone: [os.Exit(1)] of the logger, or [main] returned *).

(** Where a goroutine running [executor] is. *)
Inductive wstate :=
| WRange
    (** [for edata := range edataCh]: at the receive *)
| WFs (p : ptr) (k : nat) (rest : list execfunc)
    (** [for _, f := range edata.fs] on the [execData] at [p]: [k] closures
        called, [rest] still to call *)
| WCall (p : ptr) (k : nat) (body : execfunc) (rest : list execfunc)
    (** inside [err := f()] for closure number [k]: [body] is left of it *)
| WErr (p : ptr) (k : nat) (e : error) (rest : list execfunc)
    (** [if err != nil]: at [fmt.Println(err)] *)
| WDone
    (** past the outer loop: at [wg.Done()] *)
| WExit
    (** returned *).

(** What a transition does.  [w] is the goroutine that does it (goroutines
    are numbered in the order [main] starts them), [p] the pointer it works
    on, [k] the index in [edata.fs] of the closure concerned. *)
Inductive label :=
| LFatal (msg : string)
    (** [log.Fatal]/[log.Fatalf] with this message, and [os.Exit(1)] *)
| LConfig (eds : list ptr)
    (** [processConfig] returned [eds] *)
| LGo (w : nat)
    (** [go executor(edCh, &wg)] started goroutine [w] *)
| LSend (p : ptr) (w : nat)
    (** [edCh <- ed] handed [p] to the receive of goroutine [w] *)
| LClose
    (** [close(edCh)] *)
| LClosed (w : nat)
    (** the receive of [w] found the channel closed *)
| LCall (w : nat) (p : ptr) (k : nat) (f : execfunc)
    (** [w] called closure [f] *)
| LWrite (w : nat) (s : string)
    (** [w] wrote [s] to standard output *)
| LRun (w : nat) (c : string) (a : list string) (out : string) (err : option error)
    (** [cmd.Run()] of command [c] with arguments [a] left [out] in the
        buffer and returned [err] *)
| LRet (w : nat) (p : ptr) (k : nat) (err : option error)
    (** the closure returned [err] *)
| LJob (w : nat) (p : ptr)
    (** the inner loop over the [fs] behind [p] ended *)
| LDone (w : nat)
    (** [wg.Done()] *)
| LExit
    (** [wg.Wait()] returned and [main] with it *).

(** [st_closed]: [close(edCh)] has happened.  [st_wg]: the counter of the
    [sync.WaitGroup].  The channel is unbuffered, so it holds nothing between
    transitions: a send and a receive happen together. *)
Record state := State {
  st_main : mstate;
  st_pool : list wstate;
  st_closed : bool;
  st_wg : Z;
  st_heap : heap }.

Definition init : state := State MConfig [] false 0 [].

(** The steps of [executor] that touch nothing shared: the inner loop and the
    body of a closure.  The environment picks what [cmd.Run()] returns. *)
Inductive wstep (w : nat) : wstate -> label -> wstate -> Prop :=
| wstep_call p k f rest :
    wstep w (WFs p k (f :: rest)) (LCall w p k f) (WCall p k f rest)
| wstep_write p k s body rest :
    wstep w (WCall p k (Write s body) rest) (LWrite w s) (WCall p k body rest)
| wstep_run p k c a kont rest out err :
    wstep w (WCall p k (Run c a kont) rest) (LRun w c a out err)
      (WCall p k (kont out err) rest)
| wstep_ret_nil p k rest :
    wstep w (WCall p k (Ret None) rest) (LRet w p k None) (WFs p (S k) rest)
| wstep_ret_err p k e rest :
    wstep w (WCall p k (Ret (Some e)) rest) (LRet w p k (Some e)) (WErr p k e rest)
| wstep_println p k e rest :
    wstep w (WErr p k e rest) (LWrite w (e +:+ nl)) (WFs p (S k) rest)
| wstep_job p k :
    wstep w (WFs p k []) (LJob w p) WRange.

(** Paths of a labelled transition relation, labels in the order taken. *)
Inductive path {S L : Type} (R : S -> L -> S -> Prop) : S -> list L -> S -> Prop :=
| path_nil s : path R s [] s
| path_snoc s ls s1 l s2 :
    path R s ls s1 -> R s1 l s2 -> path R s (ls ++ [l]) s2.

Definition alive (m : mstate) : Prop :=
  match m with MExit _ => False | _ => True end.

Section Process.
(** The environment of the run: the file system and YAML parser, and the
    value of [runtime.NumCPU()]. *)
Variable E : Env.
Variable NumCPU : nat.

Inductive step : state -> label -> state -> Prop :=
| step_fatal msg :
    (* log.Fatal / log.Fatalf inside processConfig *)
    processConfig E "config.yaml" [] = Fatal msg ->
    step init (LFatal msg) (State (MExit 1) [] false 0 [])
| step_config eds h :
    (* processConfig returns; wg.Add(workers); edCh := make(chan *execData) *)
    processConfig E "config.yaml" [] = Return (eds, h) ->
    step init (LConfig eds) (State (MLoops 0 eds) [] false (Z.of_nat NumCPU) h)
| step_go i rest pool cl wg h :
    (* go executor(edCh, &wg) *)
    i < NumCPU ->
    step (State (MLoops i rest) pool cl wg h) (LGo (length pool))
         (State (MLoops (S i) rest) (pool ++ [WRange]) cl wg h)
| step_send i p rest pool wg h w e :
    (* edCh <- ed meets the receive of goroutine w, which goes on to
       range over edata.fs *)
    ¬ i < NumCPU ->
    pool !! w = Some WRange ->
    h !! p = Some e ->
    step (State (MLoops i (p :: rest)) pool false wg h) (LSend p w)
         (State (MLoops i rest) (<[w := WFs p 0 (fs e)]> pool) false wg h)
| step_close i pool cl wg h :
    (* close(edCh) *)
    ¬ i < NumCPU ->
    step (State (MLoops i []) pool cl wg h) LClose
         (State MWait pool true wg h)
| step_closed m pool wg h w :
    (* the receive of goroutine w finds the channel closed *)
    alive m ->
    pool !! w = Some WRange ->
    step (State m pool true wg h) (LClosed w)
         (State m (<[w := WDone]> pool) true wg h)
| step_done m pool cl wg h w :
    (* wg.Done() *)
    alive m ->
    pool !! w = Some WDone ->
    step (State m pool cl wg h) (LDone w)
         (State m (<[w := WExit]> pool) cl (wg - 1)%Z h)
| step_local m pool cl wg h w ws l ws' :
    alive m ->
    pool !! w = Some ws ->
    wstep w ws l ws' ->
    step (State m pool cl wg h) l (State m (<[w := ws']> pool) cl wg h)
| step_exit pool cl h :
    (* wg.Wait() returns; main returns *)
    step (State MWait pool cl 0 h) LExit (State (MExit 0) pool cl 0 h).

(** Executions, with the labels in the order they happened. *)
Definition steps : state -> list label -> state -> Prop := path step.

Definition run (ls : list label) (s : state) : Prop := steps init ls s.

(** [s'] is one transition after [s]. *)
Definition next (s' s : state) : Prop := exists l, step s l s'.
End Process.

(** *** A goroutine seen on its own

    The transitions of [executor] with those on the channel and on the
    [sync.WaitGroup] included, for goroutine [w] over the store [h]. *)
Inductive wtrans (h : heap) (w : nat) : wstate -> label -> wstate -> Prop :=
| wtrans_recv p e :
    h !! p = Some e -> wtrans h w WRange (LSend p w) (WFs p 0 (fs e))
| wtrans_closed : wtrans h w WRange (LClosed w) WDone
| wtrans_done : wtrans h w WDone (LDone w) WExit
| wtrans_local ws l ws' : wstep w ws l ws' -> wtrans h w ws l ws'.

(** The goroutine a label belongs to; [main] does the others. *)
Definition worker_of (l : label) : option nat :=
  match l with
  | LSend _ w | LClosed w | LCall w _ _ _ | LWrite w _ | LRun w _ _ _ _
  | LRet w _ _ _ | LJob w _ | LDone w => Some w
  | LFatal _ | LConfig _ | LGo _ | LClose | LExit => None
  end.

(** The labels of goroutine [w] in an execution, oldest first. *)
Definition wlabels (w : nat) (ls : list label) : list label :=
  filter (fun l => worker_of l = Some w) ls.

(** What goroutine [w] does next at the head of the inner loop, with [k]
    closures of [l] called: the call of the next one, or the end of the
    loop. *)
Definition next_label (w : nat) (p : ptr) (k : nat) (l : list execfunc) : label :=
  match l !! k with
  | Some f => LCall w p k f
  | None => LJob w p
  end.

(** ** Running the process under a schedule

    The transitions as a function: a schedule names who moves, and carries
    what the relation leaves open (the goroutine that receives a send, the
    outcome of a run). *)
Inductive choice :=
| Main (w : nat)
    (** [main] moves; when the move is a send, goroutine [w] receives *)
| Worker (w : nat) (out : string) (err : option error)
    (** goroutine [w] moves; when the move is [cmd.Run()], it leaves [out]
        in the buffer and returns [err] *).

Definition fire_main (E : Env) (NumCPU : nat) (w : nat) (s : state)
    : option (label * state) :=
  match s with
  | State MConfig [] false 0%Z [] =>
      match processConfig E "config.yaml" [] with
      | Fatal msg => Some (LFatal msg, State (MExit 1) [] false 0 [])
      | Return (eds, h) =>
          Some (LConfig eds, State (MLoops 0 eds) [] false (Z.of_nat NumCPU) h)
      end
  | State (MLoops i rest) pool cl wg h =>
      if decide (i < NumCPU) then
        Some (LGo (length pool), State (MLoops (S i) rest) (pool ++ [WRange]) cl wg h)
      else
        match rest with
        | [] => Some (LClose, State MWait pool true wg h)
        | p :: rest' =>
            match cl, pool !! w, h !! p with
            | false, Some WRange, Some e =>
                Some (LSend p w,
                      State (MLoops i rest') (<[w := WFs p 0 (fs e)]> pool) false wg h)
            | _, _, _ => None
            end
        end
  | State MWait pool cl 0%Z h => Some (LExit, State (MExit 0) pool cl 0 h)
  | _ => None
  end.

Definition fire_local (w : nat) (out : string) (err : option error) (ws : wstate)
    : option (label * wstate) :=
  match ws with
  | WFs p k [] => Some (LJob w p, WRange)
  | WFs p k (f :: rest) => Some (LCall w p k f, WCall p k f rest)
  | WCall p k (Ret None) rest => Some (LRet w p k None, WFs p (S k) rest)
  | WCall p k (Ret (Some e)) rest => Some (LRet w p k (Some e), WErr p k e rest)
  | WCall p k (Write s body) rest => Some (LWrite w s, WCall p k body rest)
  | WCall p k (Run c a kont) rest =>
      Some (LRun w c a out err, WCall p k (kont out err) rest)
  | WErr p k e rest => Some (LWrite w (e +:+ nl), WFs p (S k) rest)
  | WRange | WDone | WExit => None
  end.

Definition fire_worker (w : nat) (out : string) (err : option error) (s : state)
    : option (label * state) :=
  let '(State m pool cl wg h) := s in
  match m with
  | MExit _ => None
  | _ =>
      match pool !! w with
      | Some WRange =>
          if cl then Some (LClosed w, State m (<[w := WDone]> pool) true wg h)
          else None
      | Some WDone => Some (LDone w, State m (<[w := WExit]> pool) cl (wg - 1)%Z h)
      | Some ws =>
          match fire_local w out err ws with
          | Some (l, ws') => Some (l, State m (<[w := ws']> pool) cl wg h)
          | None => None
          end
      | None => None
      end
  end.

Definition fire (E : Env) (NumCPU : nat) (c : choice) (s : state)
    : option (label * state) :=
  match c with
  | Main w => fire_main E NumCPU w s
  | Worker w out err => fire_worker w out err s
  end.

(** The labels and the state after a schedule, when every move of it is
    enabled. *)
Fixpoint exec (E : Env) (NumCPU : nat) (cs : list choice) (ls : list label)
    (s : state) : option (list label * state) :=
  match cs with
  | [] => Some (ls, s)
  | c :: cs' =>
      match fire E NumCPU c s with
      | Some (l, s') => exec E NumCPU cs' (ls ++ [l]) s'
      | None => None
      end
  end.

(** ** Reading an execution *)

(** The closure [processConfig] builds for a decoded command descriptor. *)
Definition action_of (d : functionMeta) : execfunc :=
  buildFunc {| command := Cmd d; args := Args d |}.

(** The [execData] [processConfig] builds for a decoded group. *)
Definition job_of (r : execdataMeta) : execData :=
  {| fs := map action_of (Funcs r) |}.

(** The hand-offs of an execution, oldest first: which pointer went to which
    goroutine. *)
Definition handoffs (ls : list label) : list (ptr * nat) :=
  omap (fun l => match l with LSend p w => Some (p, w) | _ => None end) ls.

Definition sends (ls : list label) : list ptr := (handoffs ls).*1.

(** The pointers whose inner loop has run to its end. *)
Definition jobs_done (ls : list label) : list ptr :=
  omap (fun l => match l with LJob _ p => Some p | _ => None end) ls.

(** The closures called on behalf of the [execData] at [p], oldest first. *)
Definition calls (p : ptr) (ls : list label) : list execfunc :=
  omap (fun l => match l with
                 | LCall _ q _ f => if decide (q = p) then Some f else None
                 | _ => None
                 end) ls.

(** The goroutines started, and those that have called [wg.Done()]. *)
Definition gos (ls : list label) : list nat :=
  omap (fun l => match l with LGo w => Some w | _ => None end) ls.

Definition dones (ls : list label) : list nat :=
  omap (fun l => match l with LDone w => Some w | _ => None end) ls.

(** The pointer and goroutine of a label of the inner loop. *)
Definition job_label (l : label) : option (ptr * nat) :=
  match l with
  | LCall w p _ _ | LRet w p _ _ | LJob w p => Some (p, w)
  | _ => None
  end.

(** The pointer a goroutine is working on. *)
Definition holds (ws : wstate) : option ptr :=
  match ws with
  | WFs p _ _ | WCall p _ _ _ | WErr p _ _ _ => Some p
  | _ => None
  end.

Definition held (pool : list wstate) : list ptr := omap holds pool.

Arguments handoffs : simpl never.
Arguments sends : simpl never.
Arguments jobs_done : simpl never.
Arguments calls : simpl never.
Arguments gos : simpl never.
Arguments dones : simpl never.
Arguments held : simpl never.

(** Labels that add nothing to the projections of an execution. *)
Definition quiet (l : label) : bool :=
  match l with
  | LWrite _ _ | LRun _ _ _ _ _ | LRet _ _ _ _ | LClosed _ | LGo _ | LClose | LExit => true
  | _ => false
  end.

(** A document with the display names taken out. *)
Definition erase_name (n : functionNode) : functionNode :=
  {| key_name := None; key_cmd := key_cmd n; key_args := key_args n |}.

Definition erase_names (d : document) : document :=
  {| key_functions :=
       option_map (map (fun g =>
         {| key_execdata := option_map (map erase_name) (key_execdata g) |}))
         (key_functions d) |}.

(** *** The body of a call, in both readings

    [bstep] is how a goroutine moves inside [err := f()]; the events and the
    answers of the operating system can be read off the labels, and an
    operating system that replays a list of answers is [scripted]. *)
Inductive bstep (w : nat) : execfunc -> label -> execfunc -> Prop :=
| bstep_write s k : bstep w (Write s k) (LWrite w s) k
| bstep_run c a kont out err :
    bstep w (Run c a kont) (LRun w c a out err) (kont out err).

Definition scripted (c : string) (a : list string)
    (os : list (string * option error))
    : string * option error * list (string * option error) :=
  match os with
  | [] => ("", None, [])
  | (out, err) :: os' => (out, err, os')
  end.

Definition events_of (ls : list label) : list event :=
  omap (fun l => match l with
                 | LWrite _ s => Some (Stdout s)
                 | LRun _ c a _ _ => Some (Spawn c a)
                 | _ => None
                 end) ls.

Definition answers_of (ls : list label) : list (string * option error) :=
  omap (fun l => match l with
                 | LRun _ _ _ out err => Some (out, err)
                 | _ => None
                 end) ls.

(** ** The invariant of a run whose configuration was accepted *)

Definition exited (ws : wstate) : nat :=
  match ws with WExit => 1 | _ => 0 end.

(** How many goroutines have returned. *)
Definition count_exited (pool : list wstate) : nat := sum_list (exited <$> pool).

Arguments count_exited : simpl never.

Section Invariant.
Variable NumCPU : nat.
(** What [processConfig] returned: the slice of pointers and the store. *)
Variable eds : list ptr.
Variable h : heap.

(** [main] against the channel and the hand-offs so far. *)
Definition main_ok (ls : list label) (m : mstate) (pool : list wstate)
    (cl : bool) (wg : Z) : Prop :=
  match m with
  | MConfig => False
  | MLoops i rest =>
      length pool = i /\ i <= NumCPU /\ cl = false /\
      sends ls ++ rest = eds /\ (i < NumCPU -> rest = eds)
  | MWait => length pool = NumCPU /\ cl = true /\ sends ls = eds
  | MExit c =>
      c = 0 /\ length pool = NumCPU /\ cl = true /\ sends ls = eds /\ wg = 0%Z
  end.

(** Goroutine [w] against the calls made so far for its [execData]. *)
Definition worker_ok (ls : list label) (cl : bool) (w : nat) (ws : wstate) : Prop :=
  match ws with
  | WRange => True
  | WFs p k rest =>
      (p, w) ∈ handoffs ls /\
      exists e, h !! p = Some e /\ fs e = calls p ls ++ rest /\ length (calls p ls) = k
  | WCall p k _ rest | WErr p k _ rest =>
      (p, w) ∈ handoffs ls /\
      exists e, h !! p = Some e /\ fs e = calls p ls ++ rest /\ length (calls p ls) = S k
  | WDone | WExit => cl = true
  end.

Record good (ls : list label) (s : state) : Prop := {
  good_heap : st_heap s = h;
  good_main : main_ok ls (st_main s) (st_pool s) (st_closed s) (st_wg s);
  good_wg :
    st_wg s = (Z.of_nat NumCPU - Z.of_nat (count_exited (st_pool s)))%Z;
  good_jobs : sends ls ≡ₚ jobs_done ls ++ held (st_pool s);
  good_pool :
    forall w ws, st_pool s !! w = Some ws -> worker_ok ls (st_closed s) w ws;
  good_done :
    forall p, p ∈ jobs_done ls -> exists e, h !! p = Some e /\ calls p ls = fs e;
  good_unsent : forall p, p ∉ sends ls -> calls p ls = [];
  good_labels :
    forall l p w, l ∈ ls -> job_label l = Some (p, w) -> (p, w) ∈ handoffs ls;
  good_dones : forall w, w ∈ dones ls <-> st_pool s !! w = Some WExit }.
End Invariant.

(** What the goroutines of a pool have done so far: each has followed
    [executor] from its first receive, and nothing has happened yet on behalf
    of a goroutine that is not started. *)
Definition pool_paths (h : heap) (ls : list label) (pool : list wstate) : Prop :=
  (forall w ws, pool !! w = Some ws -> path (wtrans h w) WRange (wlabels w ls) ws) /\
  (forall w, length pool <= w -> wlabels w ls = []).

(** A goroutine inside the inner loop has, as what is left to call, the tail
    of the [fs] of its [execData]. *)
Definition wcoherent (h : heap) (ws : wstate) : Prop :=
  match ws with
  | WFs p k rest => exists e, h !! p = Some e /\ rest = drop k (fs e)
  | WCall p k _ rest | WErr p k _ rest =>
      exists e, h !! p = Some e /\ rest = drop (S k) (fs e)
  | _ => True
  end.

(** What must follow, among the labels of goroutine [w], the return of an
    error [err] by closure number [k] of the [execData] at [p] whose closures
    are [l]: first the [fmt.Println(err)], then the next turn of the inner
    loop. *)
Definition after_error (w : nat) (p : ptr) (k : nat) (err : error)
    (l : list execfunc) (l2 : list label) : Prop :=
  match l2 with
  | [] => True
  | x :: l2' =>
      x = LWrite w (err +:+ nl) /\
      match l2' with
      | [] => True
      | y :: _ => y = next_label w p (S k) l
      end
  end.

(** ** Measures for termination *)

(** One move of a goroutine that does not take a new [execData] from the
    channel: [ws'] is one such move after [ws]. *)
Definition wlocal (ws' ws : wstate) : Prop :=
  (exists w l, wstep w ws l ws') \/
  (ws = WRange /\ ws' = WDone) \/
  (ws = WDone /\ ws' = WExit).

(** One such move of one goroutine of a pool. *)
Definition pool_next (pool' pool : list wstate) : Prop :=
  exists w ws ws', pool !! w = Some ws /\ wlocal ws' ws /\ pool' = <[w:=ws']> pool.

(** How many pointers [processConfig] returns in environment [E]. *)
Definition config_size (E : Env) : nat :=
  match processConfig E "config.yaml" [] with
  | Return (eds, _) => length eds
  | Fatal _ => 0
  end.

(** What [main] has left to do on its own. *)
Definition main_measure (E : Env) (NumCPU : nat) (m : mstate) : nat :=
  match m with
  | MConfig => 3 + NumCPU + config_size E
  | MLoops i rest => 2 + (NumCPU - i) + length rest
  | MWait => 1
  | MExit _ => 0
  end.

(** ** Sample environments *)

(** The configuration of the comment above [processConfig]. *)
Definition sample_document : document :=
  {| key_functions := Some
       [ {| key_execdata := Some
              [ {| key_name := Some "k8s get namespace";
                   key_cmd := Some "kubectl";
                   key_args := Some ["get"; "ns"] |} ] |};
         {| key_execdata := Some
              [ {| key_name := Some "echoing";
                   key_cmd := Some "echo";
                   key_args := Some ["hi there"] |};
                {| key_name := Some "lsing";
                   key_cmd := Some "ls";
                   key_args := Some ["."] |} ] |} ] |}.

(** The same with other display names, or none. *)
Definition renamed_document : document :=
  {| key_functions := Some
       [ {| key_execdata := Some
              [ {| key_name := None;
                   key_cmd := Some "kubectl";
                   key_args := Some ["get"; "ns"] |} ] |};
         {| key_execdata := Some
              [ {| key_name := Some "say hi";
                   key_cmd := Some "echo";
                   key_args := Some ["hi there"] |};
                {| key_name := Some "";
                   key_cmd := Some "ls";
                   key_args := Some ["."] |} ] |} ] |}.

(** A file system in which every path reads as the empty file, with a parser
    that yields [d] for it. *)
Definition env_of (d : document) : Env :=
  {| ReadFile := fun _ => ([], None);
     yaml_parse := fun _ => inl d |}.

(** A file system with [config.yaml] only; every other path fails. *)
Definition env_only_config (d : document) : Env :=
  {| ReadFile := fun path =>
       if String.eqb path "config.yaml" then ([], None)
       else ([], Some ("open " +:+ path +:+ ": no such file or directory"));
     yaml_parse := fun _ => inl d |}.

(** A file system without [config.yaml]. *)
Definition env_unreadable : Env :=
  {| ReadFile := fun path =>
       ([], Some ("open " +:+ path +:+ ": no such file or directory"));
     yaml_parse := fun _ => inl sample_document |}.

(** A run of the sample configuration on two processors: both goroutines
    are started, the first takes the [kubectl] group and its command fails,
    the second takes the other group, whose [echo] succeeds and whose [ls]
    fails; the channel is closed while they work. *)
Definition sample_schedule : list choice :=
  [ Main 0; Main 0; Main 0; Main 0; Main 1;
    Worker 0 "" None; Worker 1 "" None; Worker 0 "" None;
    Main 0;
    Worker 0 "" (Some "exec: kubectl: executable file not found in $PATH");
    Worker 1 "" None; Worker 1 "hi there" None; Worker 1 "" None;
    Worker 0 "" None; Worker 0 "" None; Worker 0 "" None;
    Worker 1 "" None; Worker 1 "" None; Worker 1 "" None;
    Worker 1 "" (Some "exit status 2");
    Worker 0 "" None; Worker 0 "" None;
    Worker 1 "" None; Worker 1 "" None; Worker 1 "" None; Worker 1 "" None;
    Worker 1 "" None;
    Main 0 ].

Definition sample_result : option (list label * state) :=
  exec (env_of sample_document) 2 sample_schedule [] init.

Definition sample_labels : list label :=
  match sample_result with Some (ls, _) => ls | None => [] end.

Definition sample_state : state :=
  match sample_result with Some (_, s) => s | None => init end.

(** Labels of a send, of the inner loop and of the effects of a closure. *)
Definition job_step (l : label) : bool :=
  match l with
  | LSend _ _ | LCall _ _ _ _ | LWrite _ _ | LRun _ _ _ _ _ | LRet _ _ _ _
  | LJob _ _ => true
  | _ => false
  end.

(** A document whose only command descriptor has no [cmd] key. *)
Definition missing_cmd_document : document :=
  {| key_functions := Some
       [ {| key_execdata := Some
              [ {| key_name := Some "no command";
                   key_cmd := None;
                   key_args := Some ["hello"] |} ] |} ] |}.

(** A run of it on one processor, up to the run of the command. *)
Definition missing_cmd_schedule : list choice :=
  [ Main 0; Main 0; Main 0;
    Worker 0 "" None; Worker 0 "" None;
    Worker 0 "" (Some "exec: no command") ].

Definition missing_cmd_result : option (list label * state) :=
  exec (env_of missing_cmd_document) 1 missing_cmd_schedule [] init.

Definition missing_cmd_labels : list label :=
  match missing_cmd_result with Some (ls, _) => ls | None => [] end.

Definition missing_cmd_state : state :=
  match missing_cmd_result with Some (_, s) => s | None => init end.

(** Documents without groups. *)
Definition no_functions_document : document := {| key_functions := None |}.

(** ** The inner loop of [executor], run on its own

    [for _, f := range edata.fs { err := f(); if err != nil
    { fmt.Println(err) } }] against an operating system, as [interp] runs one
    closure: the events of the whole loop and the state the operating system
    is left in. *)
Section RangeFs.
Variable OS : Type.
Variable exec_Run : string -> list string -> OS -> string * option error * OS.

Fixpoint range_fs (l : list execfunc) (os : OS) : list event * OS :=
  match l with
  | [] => ([], os)
  | f :: rest =>
      let '(evs, err, os1) := interp exec_Run f os in
      let report := match err with
                    | Some e => [Stdout (e +:+ nl)]
                    | None => []
                    end in
      let '(evs', os2) := range_fs rest os1 in
      (evs ++ report ++ evs', os2)
  end.
End RangeFs.

Arguments range_fs {OS} exec_Run l os.

(** The commands run in a list of events, oldest first. *)
Definition spawns (evs : list event) : list (string * list string) :=
  omap (fun ev => match ev with
                  | Spawn c a => Some (c, a)
                  | Stdout _ => None
                  end) evs.

(** The lines written to standard output in a list of events. *)
Definition stdout_of (evs : list event) : list string :=
  omap (fun ev => match ev with
                  | Stdout s => Some s
                  | Spawn _ _ => None
                  end) evs.

Arguments spawns : simpl never.
Arguments stdout_of : simpl never.

(** * Properties *)

(** ** Graph construction *)

Lemma add_last (h : heap) (d : execData) (f : execfunc) :
  add (length h) f (h ++ [d]) = h ++ [ {| fs := fs d ++ [f] |} ].
Proof.
  unfold add.
  replace (length h) with (length h + 0) by lia.
  by rewrite alter_app_r.
Qed.

Lemma range_Funcs_last (funcs : list functionMeta) (h : heap) (d : execData) :
  range_Funcs (length h) funcs (h ++ [d])
  = h ++ [ {| fs := fs d ++ map action_of funcs |} ].
Proof.
  revert d. induction funcs as [|f funcs IH]; intros d; simpl.
  - rewrite app_nil_r. by destruct d.
  - rewrite add_last, IH. simpl. by rewrite <- app_assoc.
Qed.

Lemma range_Ex_spec (ex : list execdataMeta) (dataExec : list ptr) (h : heap) :
  range_Ex ex dataExec h
  = (dataExec ++ seq (length h) (length ex), h ++ map job_of ex).
Proof.
  revert dataExec h. induction ex as [|r ex IH]; intros dataExec h; simpl.
  - by rewrite !app_nil_r.
  - rewrite range_Funcs_last, IH. simpl.
    rewrite length_app, <- !app_assoc. simpl.
    by replace (length h + 1) with (S (length h)) by lia.
Qed.

Lemma processConfig_Return (E : Env) (config : string) (h : heap) c f :
  readYaml E "config.yaml" = (c, None) ->
  Unmarshal E c {| Ex := [] |} = (f, None) ->
  processConfig E config h
  = Return (seq (length h) (length (Ex f)), h ++ map job_of (Ex f)).
Proof.
  intros Hr Hu. unfold processConfig. rewrite Hr, Hu.
  by rewrite range_Ex_spec.
Qed.

(** ** Lists updated in place *)

Lemma sum_list_fmap_insert {A} (f : A -> nat) (l : list A) i x y :
  l !! i = Some x ->
  sum_list (f <$> <[i:=y]> l) + f x = sum_list (f <$> l) + f y.
Proof.
  revert i. induction l as [|a l IH]; intros [|i] Hi; simplify_eq/=; try lia.
  specialize (IH _ Hi). lia.
Qed.

Lemma omap_insert_same {A B} (f : A -> option B) (l : list A) i x y :
  l !! i = Some x -> f y = f x -> omap f (<[i:=y]> l) = omap f l.
Proof.
  revert i. induction l as [|a l IH]; intros [|i] Hi Hf; simplify_eq/=.
  - by rewrite Hf.
  - by rewrite (IH _ Hi Hf).
Qed.

Lemma omap_insert_take {A B} (f : A -> option B) (l : list A) i x y b :
  l !! i = Some x -> f x = None -> f y = Some b ->
  omap f (<[i:=y]> l) ≡ₚ b :: omap f l.
Proof.
  revert i. induction l as [|a l IH]; intros [|i] Hi Hx Hy; simplify_eq/=.
  - by rewrite Hx, Hy.
  - specialize (IH _ Hi Hx Hy). destruct (f a); [|done].
    rewrite IH. apply Permutation_swap.
Qed.

Lemma omap_insert_give {A B} (f : A -> option B) (l : list A) i x y b :
  l !! i = Some x -> f x = Some b -> f y = None ->
  omap f l ≡ₚ b :: omap f (<[i:=y]> l).
Proof.
  revert i. induction l as [|a l IH]; intros [|i] Hi Hx Hy; simplify_eq/=.
  - by rewrite Hx, Hy.
  - specialize (IH _ Hi Hx Hy). destruct (f a); [|done].
    rewrite IH. apply Permutation_swap.
Qed.

Lemma omap_lookup_elem {A B} (f : A -> option B) (l : list A) i x b :
  l !! i = Some x -> f x = Some b -> b ∈ omap f l.
Proof.
  intros Hi Hx. apply list_elem_of_omap. exists x. split; [|done].
  by apply list_elem_of_lookup_2 with i.
Qed.

Lemma NoDup_omap_lookup {A B} (f : A -> option B) (l : list A) i j x y b :
  NoDup (omap f l) ->
  l !! i = Some x -> l !! j = Some y -> f x = Some b -> f y = Some b -> i = j.
Proof.
  revert i j. induction l as [|a l IH]; intros [|i] [|j] Hnd Hi Hj Hx Hy;
    simplify_eq/=; try done.
  - rewrite Hx in Hnd. apply NoDup_cons in Hnd as [Hn _].
    destruct Hn. by eapply omap_lookup_elem.
  - rewrite Hy in Hnd. apply NoDup_cons in Hnd as [Hn _].
    destruct Hn. by eapply omap_lookup_elem.
  - f_equal. eapply IH; eauto.
    destruct (f a); [by apply NoDup_cons in Hnd as [_ ?] | done].
Qed.

Lemma count_exited_cons (ws : wstate) (pool : list wstate) :
  count_exited (ws :: pool) = exited ws + count_exited pool.
Proof. reflexivity. Qed.

Lemma count_exited_le (pool : list wstate) : count_exited pool <= length pool.
Proof.
  induction pool as [|a pool IH]; [done|].
  rewrite count_exited_cons. destruct a; simpl; lia.
Qed.

Lemma count_exited_all (pool : list wstate) w ws :
  count_exited pool = length pool -> pool !! w = Some ws -> ws = WExit.
Proof.
  revert w. induction pool as [|a pool IH]; intros w Hc Hw; [done|].
  rewrite count_exited_cons in Hc. pose proof (count_exited_le pool).
  destruct w as [|w]; simplify_eq/=.
  - destruct ws; simpl in *; try lia. done.
  - apply (IH w); [|done]. destruct a; simpl in *; lia.
Qed.

Lemma count_exited_some (pool : list wstate) :
  count_exited pool < length pool ->
  exists w ws, pool !! w = Some ws /\ exited ws = 0.
Proof.
  induction pool as [|a pool IH]; simpl; [lia|].
  rewrite count_exited_cons. intros Hlt. destruct (exited a) eqn:Ha.
  - by exists 0, a.
  - destruct IH as (w & ws & Hw & Hws).
    + assert (exited a = 1) by (destruct a; simpl in *; lia). lia.
    + by exists (S w), ws.
Qed.

Lemma count_exited_insert (pool : list wstate) w ws ws' :
  pool !! w = Some ws ->
  count_exited (<[w:=ws']> pool) + exited ws = count_exited pool + exited ws'.
Proof. apply sum_list_fmap_insert. Qed.

Lemma count_exited_snoc (pool : list wstate) :
  count_exited (pool ++ [WRange]) = count_exited pool.
Proof.
  induction pool as [|a pool IH]; [done|].
  change ((a :: pool) ++ [WRange]) with (a :: (pool ++ [WRange])).
  by rewrite !count_exited_cons, IH.
Qed.

Lemma lookup_insert_exit (pool : list wstate) w w' ws ws' :
  pool !! w = Some ws -> exited ws = 0 -> exited ws' = 0 ->
  <[w:=ws']> pool !! w' = Some WExit <-> pool !! w' = Some WExit.
Proof.
  intros Hw H0 H0'. destruct (decide (w = w')) as [<-|Hne].
  - rewrite list_lookup_insert_eq by (by eapply lookup_lt_Some).
    rewrite Hw. split; intros [= ->]; done.
  - by rewrite list_lookup_insert_ne.
Qed.

(** ** One more label at the end of an execution *)

Lemma handoffs_snoc ls l :
  handoffs (ls ++ [l])
  = handoffs ls ++ match l with LSend p w => [(p, w)] | _ => [] end.
Proof. unfold handoffs. rewrite omap_app. by destruct l. Qed.

Lemma sends_snoc ls l :
  sends (ls ++ [l]) = sends ls ++ match l with LSend p _ => [p] | _ => [] end.
Proof. unfold sends. rewrite handoffs_snoc, fmap_app. by destruct l. Qed.

Lemma jobs_done_snoc ls l :
  jobs_done (ls ++ [l])
  = jobs_done ls ++ match l with LJob _ p => [p] | _ => [] end.
Proof. unfold jobs_done. rewrite omap_app. by destruct l. Qed.

Lemma dones_snoc ls l :
  dones (ls ++ [l]) = dones ls ++ match l with LDone w => [w] | _ => [] end.
Proof. unfold dones. rewrite omap_app. by destruct l. Qed.

Lemma gos_snoc ls l :
  gos (ls ++ [l]) = gos ls ++ match l with LGo w => [w] | _ => [] end.
Proof. unfold gos. rewrite omap_app. by destruct l. Qed.

Lemma calls_snoc p ls l :
  calls p (ls ++ [l])
  = calls p ls ++ match l with
                  | LCall _ q _ f => if decide (q = p) then [f] else []
                  | _ => []
                  end.
Proof.
  unfold calls. rewrite omap_app. destruct l; try done.
  simpl. by case_decide.
Qed.

Lemma handoffs_sends ls p w : (p, w) ∈ handoffs ls -> p ∈ sends ls.
Proof. intros H. unfold sends. apply list_elem_of_fmap. by exists (p, w). Qed.

Lemma handoffs_mono ls l x : x ∈ handoffs ls -> x ∈ handoffs (ls ++ [l]).
Proof. intros H. rewrite handoffs_snoc. apply elem_of_app. by left. Qed.

Lemma worker_ok_frame h ls ls' cl cl' w ws :
  worker_ok h ls cl w ws ->
  (cl = true -> cl' = true) ->
  (forall x, x ∈ handoffs ls -> x ∈ handoffs ls') ->
  (forall p, holds ws = Some p -> calls p ls' = calls p ls) ->
  worker_ok h ls' cl' w ws.
Proof.
  intros Hok Hcl Hh Hc. destruct ws; simpl in *; auto;
    destruct Hok as (Hin & d & Hd & Hfs & Hlen);
    (split; [auto|]); exists d; by rewrite (Hc p eq_refl).
Qed.

(** ** The invariant is kept by every transition *)

Section Preservation.
Variable NumCPU : nat.
Variable eds : list ptr.
Variable h : heap.
Hypothesis eds_NoDup : NoDup eds.

Local Abbreviation inv := (good NumCPU eds h).

Lemma good_sends_NoDup ls s : inv ls s -> NoDup (sends ls).
Proof.
  intros [_ Hm _ _ _ _ _ _ _]. destruct s as [[] pool cl wg h']; simpl in Hm.
  - done.
  - destruct Hm as (_ & _ & _ & <- & _). by apply NoDup_app in eds_NoDup as [? _].
  - destruct Hm as (_ & _ & <-). done.
  - destruct Hm as (_ & _ & _ & <- & _). done.
Qed.

Lemma good_held_inj ls s w w' ws ws' p :
  inv ls s ->
  st_pool s !! w = Some ws -> st_pool s !! w' = Some ws' ->
  holds ws = Some p -> holds ws' = Some p -> w = w'.
Proof.
  intros Hg Hw Hw' Hp Hp'. pose proof (good_sends_NoDup _ _ Hg) as Hnd.
  rewrite (good_jobs _ _ _ _ _ Hg) in Hnd. apply NoDup_app in Hnd as (_ & _ & Hnd).
  by eapply (NoDup_omap_lookup holds).
Qed.

Lemma good_done_not_held ls s w ws p :
  inv ls s -> p ∈ jobs_done ls ->
  st_pool s !! w = Some ws -> holds ws = Some p -> False.
Proof.
  intros Hg Hd Hw Hp. pose proof (good_sends_NoDup _ _ Hg) as Hnd.
  rewrite (good_jobs _ _ _ _ _ Hg) in Hnd. apply NoDup_app in Hnd as (_ & Hdis & _).
  apply (Hdis p Hd). by eapply omap_lookup_elem.
Qed.

(** A goroutine moves inside its current [execData], or from the receive
    to [wg.Done()], with a quiet label. *)
Lemma good_quiet ls l m pool cl wg w ws ws' :
  inv ls (State m pool cl wg h) ->
  alive m ->
  pool !! w = Some ws ->
  quiet l = true ->
  holds ws' = holds ws -> exited ws = 0 -> exited ws' = 0 ->
  (forall p, job_label l = Some (p, w) -> (p, w) ∈ handoffs ls) ->
  (forall p w', job_label l = Some (p, w') -> w' = w) ->
  worker_ok h ls cl w ws' ->
  inv (ls ++ [l]) (State m (<[w:=ws']> pool) cl wg h).
Proof.
  intros Hg Hal Hw Hq Hholds Hx Hx' Hlab Hlabw Hok.
  assert (Hh : handoffs (ls ++ [l]) = handoffs ls)
    by (rewrite handoffs_snoc; destruct l; try done; by rewrite app_nil_r).
  assert (Hs : sends (ls ++ [l]) = sends ls) by (unfold sends; by rewrite Hh).
  assert (Hj : jobs_done (ls ++ [l]) = jobs_done ls)
    by (rewrite jobs_done_snoc; destruct l; try done; by rewrite app_nil_r).
  assert (Hd : dones (ls ++ [l]) = dones ls)
    by (rewrite dones_snoc; destruct l; try done; by rewrite app_nil_r).
  assert (Hc : forall p, calls p (ls ++ [l]) = calls p ls)
    by (intros p; rewrite calls_snoc; destruct l; try done; by rewrite app_nil_r).
  destruct Hg as [Hheap Hmain Hwg Hjobs Hpool Hdone Hunsent Hlabels Hdones].
  simpl in Hheap, Hmain, Hwg, Hjobs, Hpool, Hdones. split; simpl.
  - done.
  - destruct m; simpl in *; rewrite ?Hs, ?length_insert; done.
  - pose proof (count_exited_insert pool w ws ws' Hw). lia.
  - rewrite Hs, Hj. unfold held. by rewrite (omap_insert_same holds pool w ws ws').
  - intros w' ws'' Hl. destruct (decide (w' = w)) as [->|Hne].
    + rewrite list_lookup_insert_eq in Hl by (by eapply lookup_lt_Some).
      simplify_eq. eapply worker_ok_frame; eauto. by rewrite Hh.
    + rewrite list_lookup_insert_ne in Hl by done.
      eapply worker_ok_frame; eauto. by rewrite Hh.
  - intros p. rewrite Hj, Hc. auto.
  - intros p. rewrite Hs, Hc. auto.
  - intros l' p w' Hin Hl'. rewrite Hh. apply elem_of_app in Hin as [Hin|Hin].
    + eauto.
    + apply list_elem_of_singleton in Hin as ->.
      pose proof (Hlabw _ _ Hl') as ->. auto.
  - intros w'. rewrite Hd, Hdones. symmetry. by eapply lookup_insert_exit.
Qed.

Lemma quiet_snoc ls l :
  quiet l = true ->
  handoffs (ls ++ [l]) = handoffs ls /\ sends (ls ++ [l]) = sends ls /\
  jobs_done (ls ++ [l]) = jobs_done ls /\ dones (ls ++ [l]) = dones ls /\
  forall p, calls p (ls ++ [l]) = calls p ls.
Proof.
  intros Hq.
  rewrite sends_snoc, handoffs_snoc, jobs_done_snoc, dones_snoc.
  repeat split; try (intros p; rewrite calls_snoc);
    destruct l; try done; by rewrite app_nil_r.
Qed.

Variable E : Env.

Ltac open_good Hg :=
  let Hg' := fresh "Hinv" in
  pose proof Hg as Hg';
  destruct Hg as [Hheap Hmain Hwg Hjobs Hpool Hdone Hunsent Hlabels Hdones];
  simpl in Hheap, Hmain, Hwg, Hjobs, Hpool, Hdones.

Ltac old_label Hin :=
  apply elem_of_app in Hin as [Hin|Hin];
  [ eauto using handoffs_mono
  | apply list_elem_of_singleton in Hin as -> ].

Lemma good_go ls i rest pool cl wg :
  inv ls (State (MLoops i rest) pool cl wg h) ->
  i < NumCPU ->
  inv (ls ++ [LGo (length pool)])
    (State (MLoops (S i) rest) (pool ++ [WRange]) cl wg h).
Proof.
  intros Hg Hi. open_good Hg.
  destruct (quiet_snoc ls (LGo (length pool)) eq_refl) as (Hh & Hs & Hj & Hd & Hc).
  destruct Hmain as (Hlen & Hle & Hcl & Hsends & Hrest).
  split; simpl.
  - done.
  - rewrite Hs, length_app. simpl. repeat split; try lia; try done.
    intros. apply Hrest. lia.
  - by rewrite count_exited_snoc.
  - rewrite Hs, Hj. unfold held. rewrite omap_app. simpl. by rewrite app_nil_r.
  - intros w ws Hl. apply lookup_app_Some in Hl as [Hl | [_ Hl]].
    + eapply worker_ok_frame; eauto. by rewrite Hh.
    + apply list_lookup_singleton_Some in Hl as [_ <-]. done.
  - intros p. rewrite Hj, Hc. auto.
  - intros p. rewrite Hs, Hc. auto.
  - intros l' p w' Hin Hl'. old_label Hin. done.
  - intros w'. rewrite Hd, Hdones. split; intros Hl.
    + by apply lookup_app_l_Some.
    + apply lookup_app_Some in Hl as [Hl|[_ Hl]]; [done|].
      by apply list_lookup_singleton_Some in Hl as [_ ?].
Qed.

Lemma good_send ls i p rest pool wg w e :
  inv ls (State (MLoops i (p :: rest)) pool false wg h) ->
  ¬ i < NumCPU ->
  pool !! w = Some WRange ->
  h !! p = Some e ->
  inv (ls ++ [LSend p w])
    (State (MLoops i rest) (<[w := WFs p 0 (fs e)]> pool) false wg h).
Proof.
  intros Hg Hi Hw He. open_good Hg.
  destruct Hmain as (Hlen & Hle & Hcl & Hsends & Hrest).
  assert (Hfresh : p ∉ sends ls).
  { rewrite <- Hsends in eds_NoDup. apply NoDup_app in eds_NoDup as (_ & Hdis & _).
    intros Hin. apply (Hdis p Hin). by left. }
  assert (Hc : forall q, calls q (ls ++ [LSend p w]) = calls q ls)
    by (intros q; rewrite calls_snoc; by rewrite app_nil_r).
  split; simpl.
  - done.
  - rewrite sends_snoc, length_insert, <- app_assoc. repeat split; try done.
  - pose proof (count_exited_insert pool w _ (WFs p 0 (fs e)) Hw). simpl in *. lia.
  - rewrite sends_snoc, jobs_done_snoc, app_nil_r. unfold held.
    rewrite (omap_insert_take holds pool w WRange _ p Hw) by done.
    rewrite Hjobs. fold (held pool).
    rewrite <- app_assoc. apply Permutation_app_head.
    symmetry. apply Permutation_cons_append.
  - intros w' ws Hl. destruct (decide (w' = w)) as [->|Hne].
    + rewrite list_lookup_insert_eq in Hl by (by eapply lookup_lt_Some).
      simplify_eq. simpl. split.
      * rewrite handoffs_snoc. apply elem_of_app. right. by left.
      * exists e. by rewrite Hc, (Hunsent p Hfresh).
    + rewrite list_lookup_insert_ne in Hl by done.
      eapply worker_ok_frame; eauto using handoffs_mono.
  - intros q. rewrite jobs_done_snoc, app_nil_r, Hc. auto.
  - intros q. rewrite sends_snoc, Hc. intros Hq. apply Hunsent.
    intros Hin. apply Hq, elem_of_app. by left.
  - intros l' q w' Hin Hl'. old_label Hin. done.
  - intros w'. rewrite dones_snoc, app_nil_r, Hdones. symmetry.
    by eapply lookup_insert_exit.
Qed.

Lemma good_close ls i pool cl wg :
  inv ls (State (MLoops i []) pool cl wg h) ->
  ¬ i < NumCPU ->
  inv (ls ++ [LClose]) (State MWait pool true wg h).
Proof.
  intros Hg Hi. open_good Hg.
  destruct (quiet_snoc ls LClose eq_refl) as (Hh & Hs & Hj & Hd & Hc).
  destruct Hmain as (Hlen & Hle & Hcl & Hsends & Hrest).
  rewrite app_nil_r in Hsends.
  split; simpl.
  - done.
  - rewrite Hs. repeat split; try done. lia.
  - done.
  - by rewrite Hs, Hj.
  - intros w ws Hl. eapply worker_ok_frame; eauto. by rewrite Hh.
  - intros p. rewrite Hj, Hc. auto.
  - intros p. rewrite Hs, Hc. auto.
  - intros l' p w' Hin Hl'. old_label Hin. done.
  - intros w'. by rewrite Hd.
Qed.

Lemma good_exit ls pool cl :
  inv ls (State MWait pool cl 0 h) ->
  inv (ls ++ [LExit]) (State (MExit 0) pool cl 0 h).
Proof.
  intros Hg. open_good Hg.
  destruct (quiet_snoc ls LExit eq_refl) as (Hh & Hs & Hj & Hd & Hc).
  destruct Hmain as (Hlen & Hcl & Hsends).
  split; simpl.
  - done.
  - by rewrite Hs.
  - done.
  - by rewrite Hs, Hj.
  - intros w ws Hl. eapply worker_ok_frame; eauto. by rewrite Hh.
  - intros p. rewrite Hj, Hc. auto.
  - intros p. rewrite Hs, Hc. auto.
  - intros l' p w' Hin Hl'. old_label Hin. done.
  - intros w'. by rewrite Hd.
Qed.

Lemma good_done_step ls m pool cl wg w :
  inv ls (State m pool cl wg h) ->
  alive m ->
  pool !! w = Some WDone ->
  inv (ls ++ [LDone w]) (State m (<[w := WExit]> pool) cl (wg - 1)%Z h).
Proof.
  intros Hg Hal Hw. open_good Hg.
  assert (Hs : sends (ls ++ [LDone w]) = sends ls)
    by (by rewrite sends_snoc, app_nil_r).
  assert (Hj : jobs_done (ls ++ [LDone w]) = jobs_done ls)
    by (by rewrite jobs_done_snoc, app_nil_r).
  assert (Hc : forall q, calls q (ls ++ [LDone w]) = calls q ls)
    by (intros q; by rewrite calls_snoc, app_nil_r).
  split; simpl.
  - done.
  - destruct m; simpl in *; rewrite ?Hs, ?length_insert; done.
  - pose proof (count_exited_insert pool w _ WExit Hw). simpl in *. lia.
  - rewrite Hs, Hj. unfold held. by rewrite (omap_insert_same holds pool w WDone).
  - intros w' ws Hl. destruct (decide (w' = w)) as [->|Hne].
    + rewrite list_lookup_insert_eq in Hl by (by eapply lookup_lt_Some).
      simplify_eq. apply (Hpool _ _ Hw).
    + rewrite list_lookup_insert_ne in Hl by done.
      eapply worker_ok_frame; eauto using handoffs_mono.
  - intros p. rewrite Hj, Hc. auto.
  - intros p. rewrite Hs, Hc. auto.
  - intros l' p w' Hin Hl'. old_label Hin. done.
  - intros w'. rewrite dones_snoc, elem_of_app, list_elem_of_singleton, Hdones.
    destruct (decide (w' = w)) as [->|Hne].
    + rewrite list_lookup_insert_eq by (by eapply lookup_lt_Some). tauto.
    + rewrite list_lookup_insert_ne by done. tauto.
Qed.

Lemma good_call ls m pool cl wg w p k f rest :
  inv ls (State m pool cl wg h) ->
  alive m ->
  pool !! w = Some (WFs p k (f :: rest)) ->
  inv (ls ++ [LCall w p k f]) (State m (<[w := WCall p k f rest]> pool) cl wg h).
Proof.
  intros Hg Hal Hw. open_good Hg.
  set (l := LCall w p k f).
  assert (Hs : sends (ls ++ [l]) = sends ls)
    by (by rewrite sends_snoc, app_nil_r).
  assert (Hj : jobs_done (ls ++ [l]) = jobs_done ls)
    by (by rewrite jobs_done_snoc, app_nil_r).
  assert (Hc : forall q, q ≠ p -> calls q (ls ++ [l]) = calls q ls).
  { intros q Hq. rewrite calls_snoc. simpl. case_decide; [congruence|].
    by rewrite app_nil_r. }
  destruct (Hpool _ _ Hw) as (Hin & e & He & Hfs & Hlen).
  split; simpl.
  - done.
  - destruct m; simpl in *; rewrite ?Hs, ?length_insert; done.
  - pose proof (count_exited_insert pool w _ (WCall p k f rest) Hw). simpl in *. lia.
  - rewrite Hs, Hj. unfold held. by rewrite (omap_insert_same holds pool w _ _ Hw).
  - intros w' ws Hl. destruct (decide (w' = w)) as [->|Hne].
    + rewrite list_lookup_insert_eq in Hl by (by eapply lookup_lt_Some).
      simplify_eq. simpl. split; [by apply handoffs_mono|].
      exists e. rewrite calls_snoc. simpl. rewrite decide_True by done.
      rewrite length_app, <- app_assoc. simpl. repeat split; try done. lia.
    + rewrite list_lookup_insert_ne in Hl by done.
      eapply worker_ok_frame; eauto using handoffs_mono.
      intros q Hq. apply Hc. intros ->. apply Hne.
      by eapply (good_held_inj _ _ _ _ _ _ _ Hinv).
  - intros q Hq. rewrite Hj in Hq. rewrite Hc; [auto|].
    intros ->. by eapply (good_done_not_held _ _ _ _ _ Hinv Hq).
  - intros q Hq. rewrite Hs in Hq. rewrite Hc; [auto|].
    intros ->. apply Hq. by eapply handoffs_sends.
  - intros l' q w' Hin' Hl'. old_label Hin'. simplify_eq/=. by apply handoffs_mono.
  - intros w'. rewrite dones_snoc, app_nil_r, Hdones. symmetry.
    by eapply lookup_insert_exit.
Qed.

Lemma good_job ls m pool cl wg w p k :
  inv ls (State m pool cl wg h) ->
  alive m ->
  pool !! w = Some (WFs p k []) ->
  inv (ls ++ [LJob w p]) (State m (<[w := WRange]> pool) cl wg h).
Proof.
  intros Hg Hal Hw. open_good Hg.
  set (l := LJob w p).
  assert (Hs : sends (ls ++ [l]) = sends ls)
    by (by rewrite sends_snoc, app_nil_r).
  assert (Hc : forall q, calls q (ls ++ [l]) = calls q ls)
    by (intros q; by rewrite calls_snoc, app_nil_r).
  destruct (Hpool _ _ Hw) as (Hin & e & He & Hfs & Hlen).
  rewrite app_nil_r in Hfs.
  split; simpl.
  - done.
  - destruct m; simpl in *; rewrite ?Hs, ?length_insert; done.
  - pose proof (count_exited_insert pool w _ WRange Hw). simpl in *. lia.
  - rewrite Hs, jobs_done_snoc. simpl. rewrite Hjobs. unfold held.
    rewrite (omap_insert_give holds pool w _ WRange p Hw) by done.
    rewrite <- app_assoc. apply Permutation_app_head. done.
  - intros w' ws Hl. destruct (decide (w' = w)) as [->|Hne].
    + rewrite list_lookup_insert_eq in Hl by (by eapply lookup_lt_Some).
      by simplify_eq.
    + rewrite list_lookup_insert_ne in Hl by done.
      eapply worker_ok_frame; eauto using handoffs_mono.
  - intros q. rewrite jobs_done_snoc, Hc. simpl.
    rewrite elem_of_app, list_elem_of_singleton.
    intros [Hq| ->]; [auto|]. by exists e.
  - intros q. rewrite Hs, Hc. auto.
  - intros l' q w' Hin' Hl'. old_label Hin'. simplify_eq/=. by apply handoffs_mono.
  - intros w'. rewrite dones_snoc, app_nil_r, Hdones. symmetry.
    by eapply lookup_insert_exit.
Qed.

Lemma good_config :
  inv [LConfig eds] (State (MLoops 0 eds) [] false (Z.of_nat NumCPU) h).
Proof.
  split; simpl; try done.
  - repeat split; try done. lia.
  - unfold count_exited. simpl. lia.
  - intros p Hp. by apply elem_of_nil in Hp.
  - intros l p w Hin. apply list_elem_of_singleton in Hin as ->. done.
  - intros w. split; [intros Hw; by apply elem_of_nil in Hw | done].
Qed.

Lemma good_step ls s l s' :
  inv ls s -> step E NumCPU s l s' -> inv (ls ++ [l]) s'.
Proof.
  intros Hg Hstep. destruct Hstep as
    [ msg Hcfg | eds' h' Hcfg | i rest pool cl wg h' Hi
    | i p rest pool wg h' w e Hi Hw He | i pool cl wg h' Hi
    | m pool wg h' w Hal Hw | m pool cl wg h' w Hal Hw
    | m pool cl wg h' w ws l ws' Hal Hw Hws | pool cl h' ];
    try (by destruct Hg as [_ [] _ _ _ _ _ _ _]);
    pose proof (good_heap _ _ _ _ _ Hg) as Hh; simpl in Hh; subst h'.
  - by apply good_go.
  - by apply good_send.
  - by eapply good_close.
  - eapply good_quiet; eauto; try done.
  - by apply good_done_step.
  - pose proof (good_pool _ _ _ _ _ Hg _ _ Hw) as Hok.
    destruct Hws; simpl in Hok;
      [ by apply good_call | .. | by eapply good_job ];
      (eapply good_quiet; eauto; simpl; intros; simplify_eq; tauto).
  - by apply good_exit.
Qed.
End Preservation.

Lemma processConfig_inv (E : Env) (config : string) (h0 : heap) eds h :
  processConfig E config h0 = Return (eds, h) ->
  exists f, eds = seq (length h0) (length (Ex f)) /\ h = h0 ++ map job_of (Ex f).
Proof.
  unfold processConfig.
  destruct (readYaml E "config.yaml") as [c [e|]]; [done|].
  destruct (Unmarshal E c {| Ex := [] |}) as [f [e|]]; [done|].
  rewrite range_Ex_spec. intros [= <- <-]. by exists f.
Qed.

Lemma processConfig_NoDup (E : Env) (config : string) (h0 : heap) eds h :
  processConfig E config h0 = Return (eds, h) -> NoDup eds.
Proof.
  intros (f & -> & _)%processConfig_inv. apply NoDup_seq.
Qed.

Lemma processConfig_valid (E : Env) (config : string) eds h p :
  processConfig E config [] = Return (eds, h) -> p ∈ eds -> is_Some (h !! p).
Proof.
  intros (f & -> & ->)%processConfig_inv Hp. simpl in *.
  apply elem_of_seq in Hp. apply lookup_lt_is_Some. rewrite length_map. lia.
Qed.

Lemma step_init_inv (E : Env) (NumCPU : nat) l s :
  step E NumCPU init l s ->
  (exists msg, processConfig E "config.yaml" [] = Fatal msg /\
     l = LFatal msg /\ s = State (MExit 1) [] false 0 []) \/
  (exists eds h, processConfig E "config.yaml" [] = Return (eds, h) /\
     l = LConfig eds /\ s = State (MLoops 0 eds) [] false (Z.of_nat NumCPU) h).
Proof.
  intros Hstep. remember init as s0 eqn:Hs0.
  destruct Hstep; unfold init in Hs0; simplify_eq; try (by rewrite lookup_nil in *).
  - left. by exists msg.
  - right. by exists eds, h.
Qed.

(** Every execution of the process is empty, or is the fatal end of
    [processConfig], or starts with its return and keeps the invariant. *)
Lemma run_cases (E : Env) (NumCPU : nat) ls s :
  run E NumCPU ls s ->
  (ls = [] /\ s = init) \/
  (exists msg, processConfig E "config.yaml" [] = Fatal msg /\
     ls = [LFatal msg] /\ s = State (MExit 1) [] false 0 []) \/
  (exists eds h ls', processConfig E "config.yaml" [] = Return (eds, h) /\
     ls = LConfig eds :: ls' /\ good NumCPU eds h ls s).
Proof.
  unfold run. intros Hsteps. remember init as s0 eqn:Hs0.
  induction Hsteps as [s|s ls s1 l s2 Hsteps IH Hstep]; [by left|].
  right. specialize (IH Hs0). subst s.
  destruct IH as [[-> ->] | [(msg & Hcfg & -> & ->) | (eds & h & ls' & Hcfg & -> & Hg)]].
  - apply step_init_inv in Hstep
      as [(msg & Hcfg & -> & ->) | (eds & h & Hcfg & -> & ->)].
    + left. by exists msg.
    + right. exists eds, h, []. split; [done|]. split; [done|].
      apply good_config.
  - inversion Hstep; subst; simplify_eq/=; done.
  - right. exists eds, h, (ls' ++ [l]). split; [done|]. split; [done|].
    eapply good_step; eauto. by eapply processConfig_NoDup.
Qed.

Lemma run_good (E : Env) (NumCPU : nat) eds h ls s :
  processConfig E "config.yaml" [] = Return (eds, h) ->
  run E NumCPU ls s ->
  (ls = [] /\ s = init) \/ good NumCPU eds h ls s.
Proof.
  intros Hcfg [?|[(msg & Hf & _)|(eds' & h' & ls' & Hcfg' & _ & Hg)]]%run_cases.
  - by left.
  - congruence.
  - right. congruence.
Qed.

(** ** Paths *)

Section Paths.
Context {S L : Type} (R : S -> L -> S -> Prop).

Lemma path_nil_inv s s' : path R s [] s' -> s' = s.
Proof.
  intros Hp. remember [] as k eqn:Hk. destruct Hp as [|s0 ls s1 l s2 _ _]; [done|].
  by destruct (app_cons_not_nil ls [] l).
Qed.

Lemma path_snoc_inv s ls l s' :
  path R s (ls ++ [l]) s' -> exists s1, path R s ls s1 /\ R s1 l s'.
Proof.
  intros Hp. remember (ls ++ [l]) as k eqn:Hk.
  destruct Hp as [|s0 ls' s1 l' s2 Hp Hr].
  - by destruct (app_cons_not_nil ls [] l).
  - apply app_inj_tail in Hk as [-> ->]. by exists s1.
Qed.

Lemma path_app_inv s l1 l2 s' :
  path R s (l1 ++ l2) s' -> exists s1, path R s l1 s1 /\ path R s1 l2 s'.
Proof.
  revert s'. induction l2 as [|x l2 IH] using rev_ind; intros s' Hp.
  - rewrite app_nil_r in Hp. exists s'. split; [done | constructor].
  - rewrite app_assoc in Hp. apply path_snoc_inv in Hp as (s2 & Hp & Hr).
    destruct (IH _ Hp) as (s1 & Hp1 & Hp2). exists s1. split; [done|].
    by econstructor.
Qed.

Lemma path_one_inv s l s' : path R s [l] s' -> R s l s'.
Proof.
  intros Hp. change [l] with ([] ++ [l]) in Hp.
  apply path_snoc_inv in Hp as (s1 & Hp & Hr).
  by apply path_nil_inv in Hp as ->.
Qed.

Lemma path_cons_inv s l ls s' :
  path R s (l :: ls) s' -> exists s1, R s l s1 /\ path R s1 ls s'.
Proof.
  intros Hp. change (l :: ls) with ([l] ++ ls) in Hp.
  apply path_app_inv in Hp as (s1 & Hp1 & Hp2).
  exists s1. split; [by apply path_one_inv | done].
Qed.

Lemma path_one s l s' : R s l s' -> path R s [l] s'.
Proof. intros Hr. apply (path_snoc R s [] s); [constructor | done]. Qed.

Lemma path_app s l1 s1 l2 s2 :
  path R s l1 s1 -> path R s1 l2 s2 -> path R s (l1 ++ l2) s2.
Proof.
  intros Hp1 Hp2. induction Hp2 as [|s1 ls s2 l s3 _ IH Hr].
  - by rewrite app_nil_r.
  - rewrite app_assoc. econstructor; eauto.
Qed.
End Paths.

Lemma run_prefix (E : Env) (NumCPU : nat) l1 l2 s :
  run E NumCPU (l1 ++ l2) s -> exists s1, run E NumCPU l1 s1.
Proof. intros (s1 & Hp & _)%path_app_inv. by exists s1. Qed.

(** ** Every goroutine follows [executor] *)

Lemma wlabels_snoc w ls l :
  wlabels w (ls ++ [l])
  = wlabels w ls ++ if decide (worker_of l = Some w) then [l] else [].
Proof.
  unfold wlabels. by rewrite filter_app.
Qed.

Lemma wstep_worker_of w ws l ws' : wstep w ws l ws' -> worker_of l = Some w.
Proof. by destruct 1. Qed.

Lemma wtrans_worker_of h w ws l ws' : wtrans h w ws l ws' -> worker_of l = Some w.
Proof. destruct 1; try done. by eapply wstep_worker_of. Qed.

Lemma pool_paths_main h ls l pool :
  pool_paths h ls pool -> worker_of l = None -> pool_paths h (ls ++ [l]) pool.
Proof.
  intros [H1 H2] Hl.
  assert (Heq : forall w, wlabels w (ls ++ [l]) = wlabels w ls).
  { intros w. rewrite wlabels_snoc, Hl. rewrite decide_False by done.
    by rewrite app_nil_r. }
  split; intros w; rewrite Heq; auto.
Qed.

Lemma pool_paths_go h ls pool :
  pool_paths h ls pool ->
  pool_paths h (ls ++ [LGo (length pool)]) (pool ++ [WRange]).
Proof.
  intros Hp. apply (pool_paths_main _ _ (LGo (length pool))) in Hp as [H1 H2]; [|done].
  split.
  - intros w ws Hw. apply lookup_app_Some in Hw as [Hw | [Hle Hw]]; [auto|].
    apply list_lookup_singleton_Some in Hw as [_ <-].
    rewrite (H2 w Hle). constructor.
  - intros w Hw. rewrite length_app in Hw. simpl in Hw. apply H2. lia.
Qed.

Lemma pool_paths_worker h ls l pool w ws ws' :
  pool_paths h ls pool ->
  pool !! w = Some ws -> wtrans h w ws l ws' ->
  pool_paths h (ls ++ [l]) (<[w:=ws']> pool).
Proof.
  intros [H1 H2] Hw Ht. pose proof (wtrans_worker_of _ _ _ _ _ Ht) as Hl.
  pose proof (lookup_lt_Some _ _ _ Hw) as Hlt.
  split.
  - intros w' ws'' Hw'. rewrite wlabels_snoc, Hl.
    destruct (decide (w' = w)) as [->|Hne].
    + rewrite list_lookup_insert_eq in Hw' by done. simplify_eq.
      rewrite decide_True by done. econstructor; eauto.
    + rewrite list_lookup_insert_ne in Hw' by done.
      rewrite decide_False by congruence. rewrite app_nil_r. auto.
  - intros w' Hw'. rewrite length_insert in Hw'.
    rewrite wlabels_snoc, Hl, decide_False by (intros [=]; lia).
    rewrite app_nil_r. auto.
Qed.

Lemma run_pool_paths (E : Env) (NumCPU : nat) eds h ls s :
  processConfig E "config.yaml" [] = Return (eds, h) ->
  run E NumCPU ls s -> pool_paths h ls (st_pool s).
Proof.
  intros Hcfg Hrun. unfold run, steps in Hrun. remember init as s0 eqn:Hs0.
  induction Hrun as [s|s ls s1 l s2 Hrun IH Hstep].
  - subst s. split; [done|]. done.
  - specialize (IH Hs0). subst s.
    destruct (run_good E NumCPU eds h ls s1 Hcfg Hrun) as [[-> ->]|Hg].
    + apply step_init_inv in Hstep
        as [(msg & _ & -> & ->) | (eds' & h' & _ & -> & ->)]; by split.
    + destruct Hstep as
        [ msg _ | eds' h' _ | i rest pool cl wg h' Hi
        | i p rest pool wg h' w e Hi Hw He | i pool cl wg h' Hi
        | m pool wg h' w Hal Hw | m pool cl wg h' w Hal Hw
        | m pool cl wg h' w ws l ws' Hal Hw Hws | pool cl h' ];
        try (by destruct Hg as [_ [] _ _ _ _ _ _ _]);
        pose proof (good_heap _ _ _ _ _ Hg) as Hh; simpl in Hh; subst h';
        simpl in *.
      * by apply pool_paths_go.
      * eapply pool_paths_worker; eauto. by constructor.
      * by apply pool_paths_main.
      * eapply pool_paths_worker; eauto. constructor.
      * eapply pool_paths_worker; eauto. constructor.
      * eapply pool_paths_worker; eauto. by constructor.
      * by apply pool_paths_main.
Qed.

Lemma drop_cons_inv {A} (l : list A) k x rest :
  x :: rest = drop k l -> l !! k = Some x /\ rest = drop (S k) l.
Proof.
  intros Hd. assert (Hk : l !! k = Some x).
  { rewrite <- (Nat.add_0_r k), <- lookup_drop, <- Hd. done. }
  split; [done|]. rewrite (drop_S _ _ _ Hk) in Hd. by simplify_eq.
Qed.

Lemma drop_nil_inv {A} (l : list A) k : [] = drop k l -> l !! k = None.
Proof.
  intros Hd. apply lookup_ge_None.
  apply (f_equal length) in Hd. rewrite length_drop in Hd. simpl in Hd. lia.
Qed.

Lemma wtrans_coherent h w ws l ws' :
  wtrans h w ws l ws' -> wcoherent h ws -> wcoherent h ws'.
Proof.
  intros Ht Hc. destruct Ht as [p e He| | |ws l ws' Hs]; simpl; try done.
  - by exists e.
  - destruct Hs; simpl in *; try done.
    destruct Hc as (e & He & Hd). apply drop_cons_inv in Hd as [_ Hd]. by exists e.
Qed.

Lemma wpath_coherent h w l ws :
  path (wtrans h w) WRange l ws -> wcoherent h ws.
Proof.
  intros Hp. remember WRange as ws0 eqn:Hws0.
  induction Hp as [|ws0 ls ws1 l ws2 _ IH Ht]; [by subst|].
  eapply wtrans_coherent; eauto.
Qed.

Lemma wpath_after_error h w l1 p k err l2 ws e :
  path (wtrans h w) WRange (l1 ++ LRet w p k (Some err) :: l2) ws ->
  h !! p = Some e ->
  after_error w p k err (fs e) l2.
Proof.
  intros (ws1 & Hp1 & Hp2)%path_app_inv He.
  apply wpath_coherent in Hp1 as Hc.
  apply path_cons_inv in Hp2 as (ws2 & Ht & Hp2).
  inversion Ht as [| | |? ? ? Hs]; subst. inversion Hs; subst.
  simpl in Hc. destruct Hc as (e' & He' & Hd).
  assert (e' = e) as -> by congruence.
  assert (Hcons : forall f r, rest = f :: r -> fs e !! S k = Some f).
  { intros f r ->. by apply drop_cons_inv in Hd as [? _]. }
  assert (Hnil : rest = [] -> fs e !! S k = None).
  { intros ->. by apply drop_nil_inv in Hd. }
  clear Hd.
  destruct l2 as [|x l2]; [done|]. simpl.
  apply path_cons_inv in Hp2 as (ws3 & Ht2 & Hp3).
  inversion Ht2 as [| | |? ? ? Hs2]; subst. inversion Hs2; subst.
  split; [done|]. destruct l2 as [|y l2]; [done|].
  apply path_cons_inv in Hp3 as (ws4 & Ht3 & _).
  inversion Ht3 as [| | |? ? ? Hs3]; subst. unfold next_label.
  inversion Hs3; subst.
  - by erewrite Hcons.
  - by rewrite Hnil.
Qed.

(** ** No execution goes on for ever *)

Lemma wlocal_inv ws' ws :
  wlocal ws' ws ->
  match ws with
  | WRange => ws' = WDone
  | WDone => ws' = WExit
  | WExit => False
  | WFs p k [] => ws' = WRange
  | WFs p k (f :: rest) => ws' = WCall p k f rest
  | WCall p k (Ret None) rest => ws' = WFs p (S k) rest
  | WCall p k (Ret (Some e)) rest => ws' = WErr p k e rest
  | WCall p k (Write _ body) rest => ws' = WCall p k body rest
  | WCall p k (Run _ _ kont) rest => exists out err, ws' = WCall p k (kont out err) rest
  | WErr p k _ rest => ws' = WFs p (S k) rest
  end.
Proof.
  intros [(w & l & Hs)|[[-> ->]|[-> ->]]]; try done.
  destruct Hs; eauto.
Qed.

Lemma Acc_WExit : Acc wlocal WExit.
Proof. constructor. by intros ws' ?%wlocal_inv. Qed.

Lemma Acc_WDone : Acc wlocal WDone.
Proof. constructor. intros ws' ->%wlocal_inv. apply Acc_WExit. Qed.

Lemma Acc_WRange : Acc wlocal WRange.
Proof. constructor. intros ws' ->%wlocal_inv. apply Acc_WDone. Qed.

Lemma Acc_WCall p k rest (body : execfunc) :
  Acc wlocal (WFs p (S k) rest) -> Acc wlocal (WCall p k body rest).
Proof.
  intros Hfs. induction body as [[e|]|s body IH|c a kont IH];
    constructor; intros ws' Hws'%wlocal_inv; simpl in Hws'.
  - subst ws'. constructor. by intros ws' ->%wlocal_inv.
  - by subst ws'.
  - by subst ws'.
  - destruct Hws' as (out & err & ->). apply IH.
Qed.

Lemma Acc_WFs p k rest : Acc wlocal (WFs p k rest).
Proof.
  revert k. induction rest as [|f rest IH]; intros k;
    constructor; intros ws' ->%wlocal_inv.
  - apply Acc_WRange.
  - apply Acc_WCall, IH.
Qed.

Lemma wlocal_wf ws : Acc wlocal ws.
Proof.
  destruct ws.
  - apply Acc_WRange.
  - apply Acc_WFs.
  - apply Acc_WCall, Acc_WFs.
  - constructor. intros ws' ->%wlocal_inv. apply Acc_WFs.
  - apply Acc_WDone.
  - apply Acc_WExit.
Qed.

Lemma pool_next_cons ws pool :
  Acc wlocal ws -> Acc pool_next pool -> Acc pool_next (ws :: pool).
Proof.
  intros Hws. revert pool. induction Hws as [ws _ IHws].
  intros pool Hpool. induction Hpool as [pool Hpool IHpool].
  constructor. intros pool' (w & ws0 & ws' & Hw & Hl & ->).
  destruct w as [|w]; simplify_eq/=.
  - apply IHws; [done|]. by constructor.
  - apply IHpool. by exists w, ws0, ws'.
Qed.

Lemma pool_next_wf pool : Acc pool_next pool.
Proof.
  induction pool as [|ws pool IH].
  - constructor. by intros pool' (w & ws & ws' & Hw & _).
  - apply pool_next_cons; [apply wlocal_wf | done].
Qed.

Lemma step_measure (E : Env) (NumCPU : nat) s l s' :
  step E NumCPU s l s' ->
  main_measure E NumCPU (st_main s') < main_measure E NumCPU (st_main s) \/
  (st_main s' = st_main s /\ pool_next (st_pool s') (st_pool s)).
Proof.
  destruct 1 as
    [ msg Hcfg | eds h Hcfg | i rest pool cl wg h Hi
    | i p rest pool wg h w e Hi Hw He | i pool cl wg h Hi
    | m pool wg h w Hal Hw | m pool cl wg h w Hal Hw
    | m pool cl wg h w ws l ws' Hal Hw Hws | pool cl h ]; simpl.
  - left. lia.
  - left. unfold config_size. rewrite Hcfg. lia.
  - left. lia.
  - left. lia.
  - left. lia.
  - right. split; [done|]. exists w, WRange, WDone. unfold wlocal. tauto.
  - right. split; [done|]. exists w, WDone, WExit. unfold wlocal. tauto.
  - right. split; [done|]. exists w, ws, ws'. unfold wlocal.
    repeat split; eauto.
  - left. lia.
Qed.

Lemma next_wf (E : Env) (NumCPU : nat) s : Acc (next E NumCPU) s.
Proof.
  assert (H : forall n pool, Acc pool_next pool -> forall m cl wg h,
             main_measure E NumCPU m < n ->
             Acc (next E NumCPU) (State m pool cl wg h)).
  { induction n as [|n IHn]; [intros; lia|].
    intros pool Hpool. induction Hpool as [pool _ IHpool].
    intros m cl wg h Hm. constructor. intros [m' pool' cl' wg' h'] [l Hstep].
    apply step_measure in Hstep as [Hlt|[Heq Hnext]]; simpl in *.
    - apply IHn; [apply pool_next_wf | lia].
    - subst m'. by apply IHpool. }
  destruct s as [m pool cl wg h].
  apply (H (S (main_measure E NumCPU m))); [apply pool_next_wf | lia].
Qed.

(** ** A live process can always move *)

Lemma busy_step w ws p : holds ws = Some p -> exists l ws', wstep w ws l ws'.
Proof.
  destruct ws as [|q k [|f rest]|q k [[e|]|s body|c a kont] rest|q k e rest| |];
    intros [=]; eauto using wstep.
  Unshelve. all: first [exact "" | exact None].
Qed.

Lemma worker_progress (E : Env) (NumCPU : nat) m pool wg h w ws :
  alive m -> pool !! w = Some ws -> exited ws = 0 ->
  exists l s', step E NumCPU (State m pool true wg h) l s'.
Proof.
  intros Hal Hw Hx. destruct (holds ws) as [p|] eqn:Hp.
  - destruct (busy_step w ws p Hp) as (l & ws' & Hs).
    do 2 eexists. by eapply step_local.
  - destruct ws; try done.
    + do 2 eexists. by eapply step_closed.
    + do 2 eexists. by eapply step_done.
Qed.

Lemma good_progress (E : Env) (NumCPU : nat) eds h ls s :
  0 < NumCPU \/ eds = [] ->
  (forall p, p ∈ eds -> is_Some (h !! p)) ->
  good NumCPU eds h ls s ->
  alive (st_main s) ->
  exists l s', step E NumCPU s l s'.
Proof.
  intros HN Hvalid Hg Hal.
  destruct Hg as [Hheap Hmain Hwg Hjobs Hpool _ _ _ _].
  destruct s as [m pool cl wg h']. simpl in *. subst h'.
  destruct m as [|i rest| |c]; try done; simpl in Hmain.
  - destruct Hmain as (Hlen & Hle & -> & Hsends & _).
    destruct (decide (i < NumCPU)) as [Hi|Hi].
    { do 2 eexists. by apply step_go. }
    destruct rest as [|p rest].
    { do 2 eexists. by apply step_close. }
    assert (0 < NumCPU) as HN'.
    { destruct HN as [? | ->]; [done|]. by destruct (sends ls). }
    destruct (lookup_lt_is_Some_2 pool 0) as [ws Hw]; [lia|].
    destruct (Hvalid p) as [e He].
    { rewrite <- Hsends. apply elem_of_app. right. by left. }
    destruct (holds ws) as [q|] eqn:Hq.
    + destruct (busy_step 0 ws q Hq) as (l & ws' & Hs).
      do 2 eexists. by eapply step_local.
    + pose proof (Hpool _ _ Hw) as Hok. destruct ws; try done.
      do 2 eexists. by eapply step_send.
  - destruct Hmain as (Hlen & -> & _).
    destruct (decide (wg = 0%Z)) as [->|Hwg0].
    { do 2 eexists. apply step_exit. }
    pose proof (count_exited_le pool).
    destruct (count_exited_some pool) as (w & ws & Hw & Hx); [lia|].
    by eapply worker_progress.
Qed.

(** ** The body of a call agrees with [interp] *)

Lemma wstep_bstep w p k rest body l body' :
  bstep w body l body' ->
  wstep w (WCall p k body rest) l (WCall p k body' rest).
Proof. destruct 1; constructor. Qed.

Lemma wstep_call_inv w p k body rest l ws' :
  wstep w (WCall p k body rest) l ws' ->
  (exists body', ws' = WCall p k body' rest /\ bstep w body l body') \/
  (exists r, body = Ret r /\ l = LRet w p k r).
Proof.
  inversion 1; subst; eauto using bstep.
Qed.

Lemma bpath_interp w (body : execfunc) ls r os :
  path (bstep w) body ls (Ret r) ->
  interp scripted body (answers_of ls ++ os) = (events_of ls, r, os).
Proof.
  revert ls. induction body as [r0|s k IH|c a kont IH]; intros ls Hp.
  - destruct ls as [|l ls].
    + apply path_nil_inv in Hp. by simplify_eq.
    + apply path_cons_inv in Hp as (b & Hb & _). inversion Hb.
  - destruct ls as [|l ls].
    + by apply path_nil_inv in Hp.
    + apply path_cons_inv in Hp as (b & Hb & Hp). inversion Hb; subst.
      simpl. change (answers_of (LWrite w s :: ls)) with (answers_of ls).
      change (events_of (LWrite w s :: ls)) with (Stdout s :: events_of ls).
      by rewrite (IH _ Hp).
  - destruct ls as [|l ls].
    + by apply path_nil_inv in Hp.
    + apply path_cons_inv in Hp as (b & Hb & Hp). inversion Hb; subst.
      change (answers_of (LRun w c a out err :: ls))
        with ((out, err) :: answers_of ls).
      change (events_of (LRun w c a out err :: ls))
        with (Spawn c a :: events_of ls).
      simpl. by rewrite (IH _ _ _ Hp).
Qed.

(** * The specification, property by property *)

(** ** Graph construction *)

(** C3.  When the configuration is read and decoded into a [functionsMeta]
    with [G] groups, [processConfig] returns [G] pointers, pairwise distinct,
    in group order: the [i]-th points to an [execData] whose [fs] holds, in
    the order of the descriptors of the [i]-th group, one closure per
    descriptor, built by [buildFunc] from the descriptor's [Cmd] and
    [Args]. *)
Theorem processConfig_one_job_per_group
    (E : Env) (config : string) (h : heap) (c : bytes) (f : functionsMeta) :
  readYaml E "config.yaml" = (c, None) ->
  Unmarshal E c {| Ex := [] |} = (f, None) ->
  exists eds h',
    processConfig E config h = Return (eds, h') /\
    length eds = length (Ex f) /\
    NoDup eds /\
    forall i r, Ex f !! i = Some r ->
      exists p, eds !! i = Some p /\
        h' !! p = Some {| fs := map (fun d => buildFunc {| command := Cmd d;
                                                           args := Args d |})
                                    (Funcs r) |}.
Proof.
  intros Hr Hu. eexists _, _. split; [by apply processConfig_Return with c|].
  split; [by rewrite length_seq|]. split; [apply NoDup_seq|].
  intros i r Hi. exists (length h + i). split.
  - apply lookup_seq. split; [done|]. by eapply lookup_lt_Some.
  - rewrite lookup_app_r by lia.
    replace (length h + i - length h) with i by lia.
    by rewrite list_lookup_fmap, Hi.
Qed.

Lemma processConfig_one_job_per_group_witness :
  readYaml (env_of sample_document) "config.yaml" = ([], None) /\
  Unmarshal (env_of sample_document) [] {| Ex := [] |}
    = (decode_functionsMeta sample_document {| Ex := [] |}, None) /\
  exists eds h',
    processConfig (env_of sample_document) "config.yaml" [] = Return (eds, h') /\
    length eds = 2 /\
    NoDup eds /\
    forall i r,
      Ex (decode_functionsMeta sample_document {| Ex := [] |}) !! i = Some r ->
      exists p, eds !! i = Some p /\
        h' !! p = Some {| fs := map (fun d => buildFunc {| command := Cmd d;
                                                           args := Args d |})
                                    (Funcs r) |}.
Proof.
  split; [reflexivity|]. split; [reflexivity|].
  apply (processConfig_one_job_per_group (env_of sample_document)
           "config.yaml" [] []
           (decode_functionsMeta sample_document {| Ex := [] |})); reflexivity.
Defined.

Lemma action_of_erase (n : functionNode) :
  action_of (decode_functionMeta (erase_name n)) = action_of (decode_functionMeta n).
Proof. reflexivity. Qed.

Lemma graph_erase (d : document) (f : functionsMeta) :
  map job_of (Ex (decode_functionsMeta (erase_names d) f))
  = map job_of (Ex (decode_functionsMeta d f)).
Proof.
  destruct d as [[gs|]]; [|done]. simpl.
  rewrite !map_map. apply map_ext. intros [[ns|]]; [|done].
  unfold job_of. simpl. by rewrite !map_map.
Qed.

Lemma processConfig_graph (E : Env) (config : string) (h : heap) c d :
  ReadFile E "config.yaml" = (c, None) ->
  yaml_parse E c = inl d ->
  processConfig E config h
  = Return (seq (length h) (length (map job_of (Ex (decode_functionsMeta d {| Ex := [] |})))),
            h ++ map job_of (Ex (decode_functionsMeta d {| Ex := [] |}))).
Proof.
  intros Hr Hp. rewrite length_map.
  apply processConfig_Return with c.
  - unfold readYaml. by rewrite Hr.
  - unfold Unmarshal. by rewrite Hp.
Qed.

Lemma step_env (E1 E2 : Env) (NumCPU : nat) s l s' :
  processConfig E1 "config.yaml" [] = processConfig E2 "config.yaml" [] ->
  step E1 NumCPU s l s' -> step E2 NumCPU s l s'.
Proof.
  intros Heq Hstep. destruct Hstep; try (by econstructor; eauto).
  - apply step_fatal. congruence.
  - apply step_config. congruence.
Qed.

Lemma path_impl {S L} (R R' : S -> L -> S -> Prop) s ls s' :
  (forall a l b, R a l b -> R' a l b) -> path R s ls s' -> path R' s ls s'.
Proof. intros HR. induction 1; econstructor; eauto. Qed.

(** C8.  Two configurations that are read and parsed and whose documents are
    the same once the [name] keys are taken out give the same result of
    [processConfig]: the same pointers and the same store of closures.  The
    processes started from them have the same executions. *)
Theorem display_name_has_no_effect
    (E1 E2 : Env) (config1 config2 : string) (h : heap)
    (c1 c2 : bytes) (d1 d2 : document) :
  ReadFile E1 "config.yaml" = (c1, None) -> yaml_parse E1 c1 = inl d1 ->
  ReadFile E2 "config.yaml" = (c2, None) -> yaml_parse E2 c2 = inl d2 ->
  erase_names d1 = erase_names d2 ->
  processConfig E1 config1 h = processConfig E2 config2 h /\
  forall NumCPU ls s, run E1 NumCPU ls s <-> run E2 NumCPU ls s.
Proof.
  intros Hr1 Hp1 Hr2 Hp2 Herase.
  assert (Heq : forall config config' h0,
             processConfig E1 config h0 = processConfig E2 config' h0).
  { intros config config' h0.
    rewrite (processConfig_graph E1 config h0 c1 d1 Hr1 Hp1).
    rewrite (processConfig_graph E2 config' h0 c2 d2 Hr2 Hp2).
    by rewrite <- (graph_erase d1), <- (graph_erase d2), Herase. }
  split; [apply Heq|].
  intros NumCPU ls s. unfold run, steps.
  split; apply path_impl; intros a l b; apply step_env; [|symmetry]; apply Heq.
Qed.

Lemma display_name_has_no_effect_witness :
  ReadFile (env_of sample_document) "config.yaml" = ([], None) /\
  yaml_parse (env_of sample_document) [] = inl sample_document /\
  ReadFile (env_of renamed_document) "config.yaml" = ([], None) /\
  yaml_parse (env_of renamed_document) [] = inl renamed_document /\
  erase_names sample_document = erase_names renamed_document /\
  processConfig (env_of sample_document) "config.yaml" []
  = processConfig (env_of renamed_document) "config.yaml" [] /\
  forall NumCPU ls s,
    run (env_of sample_document) NumCPU ls s
    <-> run (env_of renamed_document) NumCPU ls s.
Proof.
  do 5 (split; [reflexivity|]).
  apply (display_name_has_no_effect (env_of sample_document)
           (env_of renamed_document) "config.yaml" "config.yaml" [] [] []
           sample_document renamed_document); reflexivity.
Defined.

(** C9.  The result of [processConfig] does not depend on its [config]
    argument, nor on any file but [config.yaml]: in two environments that
    agree on the content of [config.yaml] and on the parser, called with any
    two arguments, it ends the same way. *)
Theorem processConfig_ignores_config
    (E E' : Env) (config config' : string) (h : heap) :
  ReadFile E "config.yaml" = ReadFile E' "config.yaml" ->
  (forall c, yaml_parse E c = yaml_parse E' c) ->
  processConfig E config h = processConfig E' config' h.
Proof.
  intros Hr Hp. unfold processConfig, readYaml, Unmarshal. rewrite Hr.
  destruct (ReadFile E' "config.yaml") as [c [e|]]; [done|].
  by rewrite Hp.
Qed.

Lemma processConfig_ignores_config_witness :
  ReadFile (env_only_config sample_document) "config.yaml"
  = ReadFile (env_of sample_document) "config.yaml" /\
  (forall c, yaml_parse (env_only_config sample_document) c
             = yaml_parse (env_of sample_document) c) /\
  processConfig (env_only_config sample_document) "missing.yaml" []
  = processConfig (env_of sample_document) "config.yaml" [].
Proof.
  split; [reflexivity|]. split; [reflexivity|].
  apply (processConfig_ignores_config (env_only_config sample_document)
           (env_of sample_document) "missing.yaml" "config.yaml" []);
    reflexivity.
Defined.

(** ** Invoking a closure *)

(** C4.  Invoking the closure [buildFunc] builds from a [cli] writes the
    notice, runs the command of the [cli] with its arguments once, and then:
    when the run returns an error, returns that error and writes nothing
    more; when the run returns no error, writes the captured output followed
    by a line feed and returns [nil]. *)
Theorem buildFunc_invoke {OS : Type}
    (exec_Run : string -> list string -> OS -> string * option error * OS)
    (clargs : cli) (os : OS) :
  let '(out, err, os') := exec_Run (command clargs) (args clargs) os in
  interp exec_Run (buildFunc clargs) os
  = (Stdout ("executing " +:+ command clargs +:+ nl)
       :: Spawn (command clargs) (args clargs)
       :: match err with
          | Some _ => []
          | None => [Stdout (out +:+ nl)]
          end,
     err, os').
Proof.
  simpl. destruct (exec_Run (command clargs) (args clargs) os) as [[out [e|]] os'];
    reflexivity.
Qed.

(** ** Facts about executions used by the claims on the process *)

Lemma sends_app l1 l2 : sends (l1 ++ l2) = sends l1 ++ sends l2.
Proof. unfold sends, handoffs. by rewrite omap_app, fmap_app. Qed.

Lemma dones_app l1 l2 : dones (l1 ++ l2) = dones l1 ++ dones l2.
Proof. unfold dones. by rewrite omap_app. Qed.

Lemma NoDup_fst_inj {A B} (l : list (A * B)) a b b' :
  NoDup l.*1 -> (a, b) ∈ l -> (a, b') ∈ l -> b = b'.
Proof.
  induction l as [|[a0 b0] l IH]; simpl; intros Hnd Hb Hb'.
  - by apply elem_of_nil in Hb.
  - apply NoDup_cons in Hnd as [Hnotin Hnd].
    apply elem_of_cons in Hb as [Heq|Hb];
      apply elem_of_cons in Hb' as [Heq'|Hb']; simplify_eq; auto.
    + destruct Hnotin. apply list_elem_of_fmap. by exists (a0, b').
    + destruct Hnotin. apply list_elem_of_fmap. by exists (a0, b).
Qed.

Lemma run_step_at (E : Env) (NumCPU : nat) l1 l l2 s :
  run E NumCPU (l1 ++ l :: l2) s ->
  exists s1 s2, run E NumCPU l1 s1 /\ step E NumCPU s1 l s2 /\
                run E NumCPU (l1 ++ [l]) s2.
Proof.
  intros Hrun. change (l :: l2) with ([l] ++ l2) in Hrun.
  rewrite app_assoc in Hrun. apply path_app_inv in Hrun as (s2 & Hrun & _).
  pose proof Hrun as Hrun'.
  apply path_snoc_inv in Hrun as (s1 & Hrun & Hstep). by exists s1, s2.
Qed.

Lemma step_LExit_inv (E : Env) (NumCPU : nat) s s' :
  step E NumCPU s LExit s' ->
  exists pool cl h, s = State MWait pool cl 0 h.
Proof.
  intros Hstep. remember LExit as l eqn:Hl.
  destruct Hstep as [ | | | | | | |? ? ? ? ? ? ? ? ? ? ? Hws| ]; try done.
  - subst. inversion Hws.
  - by eexists _, _, _.
Qed.

Lemma step_LClosed_inv (E : Env) (NumCPU : nat) s w s' :
  step E NumCPU s (LClosed w) s' -> st_closed s = true.
Proof.
  intros Hstep. remember (LClosed w) as l eqn:Hl.
  destruct Hstep as [ | | | | | | |? ? ? ? ? ? ? ? ? ? ? Hws| ]; try done.
  subst. inversion Hws.
Qed.

Lemma step_LClose_inv (E : Env) (NumCPU : nat) s s' :
  step E NumCPU s LClose s' -> st_main s' = MWait.
Proof.
  intros Hstep. remember LClose as l eqn:Hl.
  destruct Hstep as [ | | | | | | |? ? ? ? ? ? ? ? ? ? ? Hws| ]; try done.
  subst. inversion Hws.
Qed.

Lemma run_gos (E : Env) (NumCPU : nat) ls s :
  run E NumCPU ls s -> gos ls = seq 0 (length (st_pool s)).
Proof.
  unfold run, steps. intros Hrun. remember init as s0 eqn:Hs0.
  induction Hrun as [s|s ls s1 l s2 Hrun IH Hstep]; [by subst|].
  specialize (IH Hs0). rewrite gos_snoc, IH.
  destruct Hstep as [ | | | | | | |? ? ? ? ? ? ? ? ? ? ? Hws| ]; simpl;
    rewrite ?app_nil_r, ?length_insert; try done.
  - rewrite length_app. simpl. by rewrite Nat.add_1_r, seq_S.
  - destruct Hws; simpl; by rewrite app_nil_r.
Qed.

Lemma good_sends_prefix NumCPU eds h ls s :
  good NumCPU eds h ls s -> sends ls `prefix_of` eds.
Proof.
  intros [_ Hm _ _ _ _ _ _ _]. destruct s as [[|i rest| |c] pool cl wg h'];
    simpl in Hm; try done.
  - destruct Hm as (_ & _ & _ & <- & _). by apply prefix_app_r.
  - by destruct Hm as (_ & _ & <-).
  - by destruct Hm as (_ & _ & _ & <- & _).
Qed.

Lemma good_closed_sends NumCPU eds h ls s :
  good NumCPU eds h ls s -> st_closed s = true -> sends ls = eds.
Proof.
  intros [_ Hm _ _ _ _ _ _ _] Hcl.
  destruct s as [[|i rest| |c] pool cl wg h']; simpl in *; try done.
  - destruct Hm as (_ & _ & ? & _). congruence.
  - by destruct Hm as (_ & _ & ?).
  - by destruct Hm as (_ & _ & _ & ? & _).
Qed.

Lemma good_wait_all_exited NumCPU eds h ls m pool cl h' w :
  good NumCPU eds h ls (State m pool cl 0 h') ->
  m = MWait \/ m = MExit 0 ->
  w < NumCPU -> pool !! w = Some WExit.
Proof.
  intros [_ Hm Hwg _ _ _ _ _ _] Hmain Hw. simpl in *.
  assert (Hlen : length pool = NumCPU).
  { destruct Hmain as [-> | ->]; simpl in Hm; tauto. }
  destruct (lookup_lt_is_Some_2 pool w) as [ws Hws]; [lia|].
  rewrite Hws. f_equal. apply (count_exited_all pool w); [lia | done].
Qed.

Lemma held_all_exited pool :
  (forall w ws, pool !! w = Some ws -> ws = WExit) -> held pool = [].
Proof.
  intros Hall. destruct (held pool) as [|p l] eqn:Hheld; [done|].
  assert (Hp : p ∈ held pool) by (rewrite Hheld; by left).
  apply list_elem_of_omap in Hp as (ws & Hin & Hholds).
  apply list_elem_of_lookup in Hin as [w Hw].
  by rewrite (Hall _ _ Hw) in Hholds.
Qed.

Lemma good_exit_complete NumCPU eds h ls s :
  good NumCPU eds h ls s -> st_main s = MExit 0 ->
  sends ls = eds /\ jobs_done ls ≡ₚ eds /\
  forall w, w < NumCPU -> w ∈ dones ls.
Proof.
  intros Hg Hm. destruct s as [m pool cl wg h']. simpl in Hm. subst m.
  pose proof (good_main _ _ _ _ _ Hg) as (_ & Hlen & _ & Hsends & Hwg).
  simpl in Hlen, Hsends, Hwg. subst wg.
  assert (Hall : forall w, w < NumCPU -> pool !! w = Some WExit)
    by (intros w; eapply good_wait_all_exited; eauto).
  split; [done|]. split.
  - pose proof (good_jobs _ _ _ _ _ Hg) as Hj. simpl in Hj.
    rewrite held_all_exited, app_nil_r in Hj; [by rewrite <- Hj, Hsends|].
    intros w ws Hw. pose proof (lookup_lt_Some _ _ _ Hw).
    rewrite Hall in Hw by lia. by simplify_eq.
  - intros w Hw. apply (good_dones _ _ _ _ _ Hg). simpl. auto.
Qed.

(** From the first transition on, the process is either ended by
    [log.Fatal] or past [processConfig], never both. *)
Lemma run_Fatal (E : Env) (NumCPU : nat) msg ls s :
  processConfig E "config.yaml" [] = Fatal msg ->
  run E NumCPU ls s ->
  (ls = [] /\ s = init) \/
  (ls = [LFatal msg] /\ s = State (MExit 1) [] false 0 []).
Proof.
  intros Hcfg [?|[(msg' & Hf & -> & ->)|(eds & h & ls' & Hcfg' & _)]]%run_cases.
  - by left.
  - right. split; [|done]. congruence.
  - congruence.
Qed.

(** ** The schedule function follows the transitions *)

Lemma fire_local_sound w out err ws l ws' :
  fire_local w out err ws = Some (l, ws') -> wstep w ws l ws'.
Proof.
  destruct ws as [|p k [|f rest]|p k [[e|]|s body|c a kont] rest|p k e rest| |];
    intros [= <- <-]; constructor.
Qed.

Lemma fire_sound (E : Env) (NumCPU : nat) c s l s' :
  fire E NumCPU c s = Some (l, s') -> step E NumCPU s l s'.
Proof.
  destruct c as [w|w out err]; simpl.
  - destruct s as [[|i rest| |code] pool cl wg h]; simpl; try done.
    + destruct pool; [|done]. destruct cl; [done|]. destruct wg; try done.
      destruct h; [|done].
      destruct (processConfig E "config.yaml" []) as [msg|[eds h]] eqn:Hcfg;
        intros [= <- <-]; by constructor.
    + case_decide as Hi; [intros [= <- <-]; by constructor|].
      destruct rest as [|p rest]; [intros [= <- <-]; by constructor|].
      destruct cl; [done|].
      destruct (pool !! w) as [[]|] eqn:Hw; try done.
      destruct (h !! p) as [e|] eqn:He; [|done].
      intros [= <- <-]. by constructor.
    + destruct wg; try done. intros [= <- <-]. constructor.
  - destruct s as [m pool cl wg h]. simpl.
    assert (Hlocal : forall ws,
      pool !! w = Some ws -> alive m ->
      match fire_local w out err ws with
      | Some (l, ws') => Some (l, State m (<[w:=ws']> pool) cl wg h)
      | None => None
      end = Some (l, s') -> step E NumCPU (State m pool cl wg h) l s').
    { intros ws Hw Hal. destruct (fire_local w out err ws) as [[l0 ws']|] eqn:Hf;
        [|done].
      intros [= <- <-]. eapply step_local; eauto. by eapply fire_local_sound. }
    destruct m as [|i rest| |code]; try done;
      (destruct (pool !! w) as [ws|] eqn:Hw; [|done]);
      (destruct ws;
       [ destruct cl; [intros [= <- <-]; by constructor | done]
       | by apply Hlocal | by apply Hlocal | by apply Hlocal
       | intros [= <- <-]; by constructor
       | by apply Hlocal ]).
Qed.

Lemma exec_sound (E : Env) (NumCPU : nat) cs ls0 s0 ls s :
  exec E NumCPU cs ls0 s0 = Some (ls, s) ->
  run E NumCPU ls0 s0 -> run E NumCPU ls s.
Proof.
  revert ls0 s0. induction cs as [|c cs IH]; intros ls0 s0; simpl.
  - by intros [= <- <-].
  - destruct (fire E NumCPU c s0) as [[l s1]|] eqn:Hf; [|done].
    intros Hexec Hrun. apply (IH _ _ Hexec).
    econstructor; [exact Hrun|]. by eapply fire_sound.
Qed.

Lemma exec_run (E : Env) (NumCPU : nat) cs ls s :
  exec E NumCPU cs [] init = Some (ls, s) -> run E NumCPU ls s.
Proof. intros Hexec. eapply exec_sound; [exact Hexec | constructor]. Qed.

Lemma sample_run : run (env_of sample_document) 2 sample_labels sample_state.
Proof. apply (exec_run _ _ sample_schedule). reflexivity. Qed.

(** ** The process *)

(** C5.  When [config.yaml] cannot be read, or is read but cannot be decoded,
    [processConfig] ends in [log.Fatal] with the message [msg], and the
    process has exactly one transition, this fatal exit with status 1: in
    every execution no goroutine is started, nothing is sent and no closure
    is called. *)
Theorem config_error_is_fatal (E : Env) (NumCPU : nat) (msg : string) :
  (exists c, ReadFile E "config.yaml" = (c, Some msg)) \/
  (exists c e, ReadFile E "config.yaml" = (c, None) /\
               yaml_parse E c = inr e /\
               msg = "Error decoding yaml file " +:+ e) ->
  processConfig E "config.yaml" [] = Fatal msg /\
  step E NumCPU init (LFatal msg) (State (MExit 1) [] false 0 []) /\
  (forall l s', ~ step E NumCPU (State (MExit 1) [] false 0 []) l s') /\
  forall ls s, run E NumCPU ls s ->
    ((ls = [] /\ s = init) \/
     (ls = [LFatal msg] /\ s = State (MExit 1) [] false 0 [])) /\
    st_pool s = [] /\ gos ls = [] /\ sends ls = [] /\
    (forall p, calls p ls = []).
Proof.
  intros Hbad.
  assert (Hcfg : processConfig E "config.yaml" [] = Fatal msg).
  { unfold processConfig, readYaml, Unmarshal.
    destruct Hbad as [[c Hr] | (c & e & Hr & Hp & ->)]; rewrite Hr; [done|].
    by rewrite Hp. }
  split; [done|]. split; [by constructor|]. split.
  { intros l s' Hstep. inversion Hstep; subst; simpl in *;
      by rewrite ?lookup_nil in *. }
  intros ls s Hrun. split; [by eapply run_Fatal|].
  by destruct (run_Fatal _ _ _ _ _ Hcfg Hrun) as [[-> ->]|[-> ->]].
Qed.

Lemma config_error_is_fatal_witness :
  ((exists c, ReadFile env_unreadable "config.yaml"
              = (c, Some "open config.yaml: no such file or directory")) \/
   (exists c e, ReadFile env_unreadable "config.yaml" = (c, None) /\
                yaml_parse env_unreadable c = inr e /\
                "open config.yaml: no such file or directory"
                = "Error decoding yaml file " +:+ e)) /\
  processConfig env_unreadable "config.yaml" []
  = Fatal "open config.yaml: no such file or directory" /\
  step env_unreadable 4 init
    (LFatal "open config.yaml: no such file or directory")
    (State (MExit 1) [] false 0 []) /\
  (forall l s', ~ step env_unreadable 4 (State (MExit 1) [] false 0 []) l s') /\
  forall ls s, run env_unreadable 4 ls s ->
    ((ls = [] /\ s = init) \/
     (ls = [LFatal "open config.yaml: no such file or directory"] /\
      s = State (MExit 1) [] false 0 [])) /\
    st_pool s = [] /\ gos ls = [] /\ sends ls = [] /\
    (forall p, calls p ls = []).
Proof.
  split; [left; exists []; reflexivity|].
  apply (config_error_is_fatal env_unreadable 4
           "open config.yaml: no such file or directory").
  left. exists []. reflexivity.
Defined.

Lemma good_calls_prefix NumCPU eds h ls s p e :
  NoDup eds ->
  good NumCPU eds h ls s -> h !! p = Some e -> calls p ls `prefix_of` fs e.
Proof.
  intros Hnd Hg He. destruct (decide (p ∈ sends ls)) as [Hin|Hout].
  - rewrite (good_jobs _ _ _ _ _ Hg) in Hin.
    apply elem_of_app in Hin as [Hin|Hin].
    + destruct (good_done _ _ _ _ _ Hg p Hin) as (e' & He' & ->).
      by simplify_eq.
    + apply list_elem_of_omap in Hin as (ws & Hws & Hholds).
      apply list_elem_of_lookup in Hws as [w Hw].
      pose proof (good_pool _ _ _ _ _ Hg w ws Hw) as Hok.
      destruct ws; simplify_eq/=;
        destruct Hok as (_ & e' & He' & Hfs & _); simplify_eq;
        rewrite Hfs; by apply prefix_app_r.
  - rewrite (good_unsent _ _ _ _ _ Hg p Hout). apply prefix_nil.
Qed.

(** C1.  In every execution, for the [execData] at any pointer [p]: the
    closures called for it so far are, in order, an initial part of its [fs]
    (none skipped, none called twice, none out of order); once its inner loop
    has ended, and for every [p] of the graph once the process has exited
    normally, they are the whole of [fs], whatever the closures returned.
    When closure number [k] returns an error to goroutine [w], what [w] does
    next is to print that error, and what it does after that is the next
    turn of the inner loop: the call of closure [k+1] of the same [fs], or
    the end of the loop when there is none. *)
Theorem executor_calls_every_action_in_order
    (E : Env) (NumCPU : nat) (eds : list ptr) (h : heap)
    (ls : list label) (s : state) (p : ptr) (e : execData) :
  processConfig E "config.yaml" [] = Return (eds, h) ->
  run E NumCPU ls s ->
  h !! p = Some e ->
  calls p ls `prefix_of` fs e /\
  (p ∈ jobs_done ls -> calls p ls = fs e) /\
  (st_main s = MExit 0 -> p ∈ eds -> calls p ls = fs e) /\
  (forall w k err l1 l2,
     wlabels w ls = l1 ++ LRet w p k (Some err) :: l2 ->
     after_error w p k err (fs e) l2).
Proof.
  intros Hcfg Hrun He.
  pose proof (processConfig_NoDup _ _ _ _ _ Hcfg) as Hnd.
  pose proof (run_pool_paths _ _ _ _ _ _ Hcfg Hrun) as [Hpaths Hnone].
  assert (Herr : forall w k err l1 l2,
            wlabels w ls = l1 ++ LRet w p k (Some err) :: l2 ->
            after_error w p k err (fs e) l2).
  { intros w k err l1 l2 Hw.
    destruct (decide (w < length (st_pool s))) as [Hlt|Hge].
    - destruct (lookup_lt_is_Some_2 _ _ Hlt) as [ws Hws].
      specialize (Hpaths _ _ Hws). rewrite Hw in Hpaths.
      by eapply wpath_after_error.
    - rewrite Hnone in Hw by lia. by destruct l1. }
  destruct (run_good _ _ _ _ _ _ Hcfg Hrun) as [[-> ->]|Hg].
  - repeat split; try done.
    + apply prefix_nil.
    + intros Hin. by apply elem_of_nil in Hin.
  - assert (Hdone : p ∈ jobs_done ls -> calls p ls = fs e).
    { intros Hin. destruct (good_done _ _ _ _ _ Hg p Hin) as (e' & He' & ->).
      by simplify_eq. }
    repeat split; try done.
    + by eapply good_calls_prefix.
    + intros Hexit Hp. apply Hdone.
      destruct (good_exit_complete _ _ _ _ _ Hg Hexit) as (_ & Hperm & _).
      by rewrite Hperm.
Qed.

Lemma executor_calls_every_action_in_order_witness :
  processConfig (env_of sample_document) "config.yaml" []
  = Return ([0; 1], st_heap sample_state) /\
  run (env_of sample_document) 2 sample_labels sample_state /\
  st_heap sample_state !! 1
  = Some {| fs := [ buildFunc {| command := "echo"; args := ["hi there"] |};
                    buildFunc {| command := "ls"; args := ["."] |} ] |} /\
  calls 1 sample_labels
    `prefix_of` [ buildFunc {| command := "echo"; args := ["hi there"] |};
                  buildFunc {| command := "ls"; args := ["."] |} ] /\
  (1 ∈ jobs_done sample_labels ->
   calls 1 sample_labels
   = [ buildFunc {| command := "echo"; args := ["hi there"] |};
       buildFunc {| command := "ls"; args := ["."] |} ]) /\
  (st_main sample_state = MExit 0 -> 1 ∈ [0; 1] ->
   calls 1 sample_labels
   = [ buildFunc {| command := "echo"; args := ["hi there"] |};
       buildFunc {| command := "ls"; args := ["."] |} ]) /\
  (forall w k err l1 l2,
     wlabels w sample_labels = l1 ++ LRet w 1 k (Some err) :: l2 ->
     after_error w 1 k err
       [ buildFunc {| command := "echo"; args := ["hi there"] |};
         buildFunc {| command := "ls"; args := ["."] |} ] l2).
Proof.
  split; [reflexivity|]. split; [exact sample_run|]. split; [reflexivity|].
  apply (executor_calls_every_action_in_order (env_of sample_document) 2
           [0; 1] (st_heap sample_state) sample_labels sample_state 1
           {| fs := [ buildFunc {| command := "echo"; args := ["hi there"] |};
                      buildFunc {| command := "ls"; args := ["."] |} ] |});
    [reflexivity | exact sample_run | reflexivity].
Defined.

Lemma run_alive_progress (E : Env) (NumCPU : nat) eds h ls s :
  processConfig E "config.yaml" [] = Return (eds, h) ->
  run E NumCPU ls s ->
  0 < NumCPU \/ eds = [] ->
  alive (st_main s) ->
  exists l s', step E NumCPU s l s'.
Proof.
  intros Hcfg Hrun HN Hal.
  destruct (run_good _ _ _ _ _ _ Hcfg Hrun) as [[-> ->]|Hg].
  - do 2 eexists. by apply step_config.
  - eapply good_progress; eauto. intros p Hp. by eapply processConfig_valid.
Qed.

(** C2.  In every execution of a process whose configuration was accepted:
    the pointers of the graph are pairwise distinct; the pointers sent are an
    initial part of the graph, each sent once and to one goroutine; every
    step of an inner loop is taken by the goroutine that received the
    pointer; an inner loop ends at most once, and only for a pointer that
    was sent.  When the process has exited normally, every pointer of the
    graph has been sent and the inner loops that ended are those of the
    graph, each once.  With at least one processor a live process can always
    move, and no execution goes on for ever: the normal exit is reached. *)
Theorem every_job_runs_exactly_once
    (E : Env) (NumCPU : nat) (eds : list ptr) (h : heap)
    (ls : list label) (s : state) :
  processConfig E "config.yaml" [] = Return (eds, h) ->
  run E NumCPU ls s ->
  NoDup eds /\
  sends ls `prefix_of` eds /\
  (forall p w w', (p, w) ∈ handoffs ls -> (p, w') ∈ handoffs ls -> w = w') /\
  (forall l p w, l ∈ ls -> job_label l = Some (p, w) -> (p, w) ∈ handoffs ls) /\
  NoDup (jobs_done ls) /\
  (forall p, p ∈ jobs_done ls -> p ∈ sends ls) /\
  (st_main s = MExit 0 ->
   sends ls = eds /\ jobs_done ls ≡ₚ eds /\
   length (jobs_done ls) = length eds) /\
  st_main s ≠ MExit 1 /\
  (0 < NumCPU -> alive (st_main s) -> exists l s', step E NumCPU s l s') /\
  Acc (next E NumCPU) s.
Proof.
  intros Hcfg Hrun.
  pose proof (processConfig_NoDup _ _ _ _ _ Hcfg) as Hnd.
  split; [done|].
  assert (Hlive : 0 < NumCPU -> alive (st_main s) ->
            exists l s', step E NumCPU s l s')
    by (intros; eapply run_alive_progress; eauto).
  destruct (run_good _ _ _ _ _ _ Hcfg Hrun) as [[-> ->]|Hg].
  - split; [apply prefix_nil|].
    split; [intros p w w' Hin; by apply elem_of_nil in Hin|].
    split; [intros l p w Hin; by apply elem_of_nil in Hin|].
    split; [constructor|].
    split; [intros p Hin; by apply elem_of_nil in Hin|].
    split; [done|]. split; [done|]. split; [done | apply next_wf].
  - pose proof (good_sends_NoDup _ _ _ Hnd _ _ Hg) as Hsnd.
    pose proof Hsnd as Hjobs. rewrite (good_jobs _ _ _ _ _ Hg) in Hjobs.
    apply NoDup_app in Hjobs as (Hjnd & _ & _).
    split; [by eapply good_sends_prefix|].
    split; [intros p w w'; by apply NoDup_fst_inj|].
    split; [apply (good_labels _ _ _ _ _ Hg)|].
    split; [done|].
    split.
    { intros p Hp. rewrite (good_jobs _ _ _ _ _ Hg). apply elem_of_app. by left. }
    split.
    { intros Hexit.
      destruct (good_exit_complete _ _ _ _ _ Hg Hexit) as (Hs & Hperm & _).
      split; [done|]. split; [done|]. by rewrite Hperm. }
    split.
    { pose proof (good_main _ _ _ _ _ Hg) as Hm.
      destruct (st_main s); try done. simpl in Hm. intros [= ->]. lia. }
    split; [done | apply next_wf].
Qed.

Lemma every_job_runs_exactly_once_witness :
  processConfig (env_of sample_document) "config.yaml" []
  = Return ([0; 1], st_heap sample_state) /\
  run (env_of sample_document) 2 sample_labels sample_state /\
  NoDup [0; 1] /\
  sends sample_labels `prefix_of` [0; 1] /\
  (forall p w w',
     (p, w) ∈ handoffs sample_labels -> (p, w') ∈ handoffs sample_labels ->
     w = w') /\
  (forall l p w,
     l ∈ sample_labels -> job_label l = Some (p, w) ->
     (p, w) ∈ handoffs sample_labels) /\
  NoDup (jobs_done sample_labels) /\
  (forall p, p ∈ jobs_done sample_labels -> p ∈ sends sample_labels) /\
  (st_main sample_state = MExit 0 ->
   sends sample_labels = [0; 1] /\ jobs_done sample_labels ≡ₚ [0; 1] /\
   length (jobs_done sample_labels) = length [0; 1]) /\
  st_main sample_state ≠ MExit 1 /\
  (0 < 2 -> alive (st_main sample_state) ->
   exists l s', step (env_of sample_document) 2 sample_state l s') /\
  Acc (next (env_of sample_document) 2) sample_state.
Proof.
  split; [reflexivity|]. split; [exact sample_run|].
  apply (every_job_runs_exactly_once (env_of sample_document) 2 [0; 1]
           (st_heap sample_state) sample_labels sample_state);
    [reflexivity | exact sample_run].
Defined.

Lemma run_closed_LClose (E : Env) (NumCPU : nat) ls s :
  run E NumCPU ls s -> st_closed s = true -> LClose ∈ ls.
Proof.
  unfold run, steps. intros Hrun. remember init as s0 eqn:Hs0.
  induction Hrun as [s|s ls s1 l s2 Hrun IH Hstep]; [by subst|].
  specialize (IH Hs0). intros Hcl. apply elem_of_app.
  destruct Hstep; simpl in *; try done; try (left; by apply IH).
  right. by left.
Qed.

(** C7.  In every execution of a process whose configuration was accepted:
    the pointers are sent in the order of the graph; when the channel is
    closed every pointer of the graph has been sent, and none is sent
    afterwards; when a goroutine finds the channel closed, every pointer of
    the graph has been sent; when the process exits, every one of the
    [NumCPU] goroutines has called [wg.Done()] before.  With at least one
    processor a live process can always move and no execution goes on for
    ever, so the close and the exit are reached. *)
Theorem coordinator_closes_after_last_send_and_waits
    (E : Env) (NumCPU : nat) (eds : list ptr) (h : heap)
    (ls : list label) (s : state) :
  processConfig E "config.yaml" [] = Return (eds, h) ->
  run E NumCPU ls s ->
  sends ls `prefix_of` eds /\
  (forall l1 l2, ls = l1 ++ LClose :: l2 -> sends l1 = eds /\ sends l2 = []) /\
  (forall l1 w l2, ls = l1 ++ LClosed w :: l2 -> sends l1 = eds) /\
  (forall l1 l2, ls = l1 ++ LExit :: l2 ->
     forall w, w < NumCPU -> w ∈ dones l1) /\
  (st_main s = MExit 0 -> sends ls = eds /\ LClose ∈ ls) /\
  (0 < NumCPU -> alive (st_main s) -> exists l s', step E NumCPU s l s') /\
  Acc (next E NumCPU) s.
Proof.
  intros Hcfg Hrun.
  pose proof (processConfig_NoDup _ _ _ _ _ Hcfg) as Hnd.
  assert (Hpre : sends ls `prefix_of` eds).
  { destruct (run_good _ _ _ _ _ _ Hcfg Hrun) as [[-> ->]|Hg];
      [apply prefix_nil | by eapply good_sends_prefix]. }
  assert (Hgood : forall l1 l l2, ls = l1 ++ l :: l2 ->
            exists s1 s2, step E NumCPU s1 l s2 /\
              good NumCPU eds h (l1 ++ [l]) s2 /\
              (l1 = [] /\ s1 = init \/ good NumCPU eds h l1 s1)).
  { intros l1 l l2 ->. apply run_step_at in Hrun as (s1 & s2 & Hr1 & Hstep & Hr2).
    exists s1, s2. split; [done|]. split.
    - destruct (run_good _ _ _ _ _ _ Hcfg Hr2) as [[Hnil _]|Hg]; [|done].
      by destruct l1.
    - by eapply run_good. }
  split; [done|]. split.
  { intros l1 l2 Hls.
    destruct (Hgood _ _ _ Hls) as (s1 & s2 & Hstep & Hg2 & _).
    apply step_LClose_inv in Hstep.
    assert (Hs1 : sends l1 = eds).
    { pose proof (good_main _ _ _ _ _ Hg2) as Hm. rewrite Hstep in Hm.
      destruct Hm as (_ & _ & Hs). by rewrite sends_snoc, app_nil_r in Hs. }
    split; [done|]. destruct Hpre as [rest Hrest].
    rewrite Hls, sends_app, Hs1 in Hrest.
    change (LClose :: l2) with ([LClose] ++ l2) in Hrest.
    rewrite sends_app in Hrest. change (sends [LClose]) with (@nil nat) in Hrest.
    simpl in Hrest. rewrite <- app_assoc in Hrest.
    rewrite <- (app_nil_r eds) in Hrest at 1.
    apply app_inv_head in Hrest. symmetry in Hrest.
    by apply app_eq_nil in Hrest as [? _]. }
  split.
  { intros l1 w l2 Hls.
    destruct (Hgood _ _ _ Hls) as (s1 & s2 & Hstep & _ & [[-> ->]|Hg1]).
    - by apply step_LClosed_inv in Hstep.
    - apply step_LClosed_inv in Hstep. by eapply good_closed_sends. }
  split.
  { intros l1 l2 Hls w Hw.
    destruct (Hgood _ _ _ Hls) as (s1 & s2 & Hstep & _ & Hg1).
    apply step_LExit_inv in Hstep as (pool & cl & h' & ->).
    destruct Hg1 as [[_ Heq]|Hg1]; [by unfold init in Heq|].
    apply (good_dones _ _ _ _ _ Hg1). simpl.
    eapply good_wait_all_exited; eauto. }
  split.
  { intros Hexit.
    destruct (run_good _ _ _ _ _ _ Hcfg Hrun) as [[-> ->]|Hg]; [done|].
    split; [by apply (good_exit_complete _ _ _ _ _ Hg Hexit)|].
    apply (run_closed_LClose _ _ _ _ Hrun).
    pose proof (good_main _ _ _ _ _ Hg) as Hm. rewrite Hexit in Hm.
    by destruct Hm as (_ & _ & ? & _). }
  split; [intros; eapply run_alive_progress; eauto | apply next_wf].
Qed.

Lemma coordinator_closes_after_last_send_and_waits_witness :
  processConfig (env_of sample_document) "config.yaml" []
  = Return ([0; 1], st_heap sample_state) /\
  run (env_of sample_document) 2 sample_labels sample_state /\
  sends sample_labels `prefix_of` [0; 1] /\
  (forall l1 l2, sample_labels = l1 ++ LClose :: l2 ->
     sends l1 = [0; 1] /\ sends l2 = []) /\
  (forall l1 w l2, sample_labels = l1 ++ LClosed w :: l2 -> sends l1 = [0; 1]) /\
  (forall l1 l2, sample_labels = l1 ++ LExit :: l2 ->
     forall w, w < 2 -> w ∈ dones l1) /\
  (st_main sample_state = MExit 0 ->
   sends sample_labels = [0; 1] /\ LClose ∈ sample_labels) /\
  (0 < 2 -> alive (st_main sample_state) ->
   exists l s', step (env_of sample_document) 2 sample_state l s') /\
  Acc (next (env_of sample_document) 2) sample_state.
Proof.
  split; [reflexivity|]. split; [exact sample_run|].
  apply (coordinator_closes_after_last_send_and_waits
           (env_of sample_document) 2 [0; 1] (st_heap sample_state)
           sample_labels sample_state);
    [reflexivity | exact sample_run].
Defined.

Lemma wstep_holds w ws l ws' : wstep w ws l ws' -> exists p, holds ws = Some p.
Proof. destruct 1; simpl; eauto. Qed.

Lemma wstep_job_step w ws l ws' : wstep w ws l ws' -> job_step l = true.
Proof. by destruct 1. Qed.

Lemma good_empty_idle NumCPU h ls s w ws :
  good NumCPU [] h ls s -> st_pool s !! w = Some ws -> holds ws = None.
Proof.
  intros Hg Hw. destruct (holds ws) as [p|] eqn:Hp; [|done].
  assert (Hin : p ∈ sends ls).
  { rewrite (good_jobs _ _ _ _ _ Hg). apply elem_of_app. right.
    by eapply omap_lookup_elem. }
  pose proof (good_sends_prefix _ _ _ _ _ Hg) as Hpre.
  apply prefix_nil_inv in Hpre. rewrite Hpre in Hin. by apply elem_of_nil in Hin.
Qed.

Lemma good_empty_step (E : Env) (NumCPU : nat) h ls s l s' :
  good NumCPU [] h ls s -> step E NumCPU s l s' -> job_step l = false.
Proof.
  intros Hg Hstep.
  destruct Hstep as [ | | | i p rest pool wg h0 w e Hi Hw He | | |
                    | m pool cl wg h0 w ws l ws' Hal Hw Hws | ]; try done.
  - destruct (good_main _ _ _ _ _ Hg) as (_ & _ & _ & Hs & _). simpl in Hs.
    by destruct (sends ls).
  - apply wstep_holds in Hws as [p Hp].
    by rewrite (good_empty_idle _ _ _ _ _ _ Hg Hw) in Hp.
Qed.

(** C10.  When [config.yaml] is read and parsed and its document has no
    [functions] key, or an empty sequence under it, [processConfig] returns
    the empty slice.  In every execution of the process nothing is sent, no
    closure is called and no command is run, and the process does not end in
    [log.Fatal]; a live process can always move and no execution goes on for
    ever; when the process has exited, all [NumCPU] goroutines had been
    started, the channel had been closed, and every goroutine had called
    [wg.Done()]. *)
Theorem no_groups_still_starts_and_stops_the_pool
    (E : Env) (NumCPU : nat) (c : bytes) (d : document) :
  ReadFile E "config.yaml" = (c, None) ->
  yaml_parse E c = inl d ->
  key_functions d = None \/ key_functions d = Some [] ->
  processConfig E "config.yaml" [] = Return ([], []) /\
  forall ls s, run E NumCPU ls s ->
    sends ls = [] /\
    (forall l, l ∈ ls -> job_step l = false) /\
    st_main s ≠ MExit 1 /\
    (alive (st_main s) -> exists l s', step E NumCPU s l s') /\
    Acc (next E NumCPU) s /\
    (st_main s = MExit 0 ->
     gos ls = seq 0 NumCPU /\ LClose ∈ ls /\
     forall w, w < NumCPU -> w ∈ dones ls).
Proof.
  intros Hr Hp Hnone.
  assert (Hcfg : processConfig E "config.yaml" [] = Return ([], [])).
  { rewrite (processConfig_graph E _ _ c d Hr Hp).
    unfold decode_functionsMeta. by destruct Hnone as [-> | ->]. }
  split; [done|]. intros ls s Hrun.
  assert (Hsends : sends ls = []).
  { destruct (run_good _ _ _ _ _ _ Hcfg Hrun) as [[-> ->]|Hg]; [done|].
    apply prefix_nil_inv. by eapply good_sends_prefix. }
  split; [done|]. split.
  { intros l Hl. apply list_elem_of_split in Hl as (l1 & l2 & ->).
    apply run_step_at in Hrun as (s1 & s2 & Hr1 & Hstep & _).
    destruct (run_good _ _ _ _ _ _ Hcfg Hr1) as [[-> ->]|Hg].
    - by apply step_init_inv in Hstep
        as [(msg & _ & -> & _) | (eds & h & _ & -> & _)].
    - by eapply good_empty_step. }
  split.
  { destruct (run_good _ _ _ _ _ _ Hcfg Hrun) as [[-> ->]|Hg]; [done|].
    pose proof (good_main _ _ _ _ _ Hg) as Hm.
    destruct (st_main s); try done. simpl in Hm. intros [= ->]. lia. }
  split; [intros; eapply run_alive_progress; eauto|].
  split; [apply next_wf|].
  intros Hexit.
  destruct (run_good _ _ _ _ _ _ Hcfg Hrun) as [[-> ->]|Hg]; [done|].
  pose proof (good_main _ _ _ _ _ Hg) as Hm. rewrite Hexit in Hm.
  destruct Hm as (_ & Hlen & Hcl & _).
  split; [by rewrite (run_gos _ _ _ _ Hrun), Hlen|].
  split; [by eapply run_closed_LClose|].
  by apply (good_exit_complete _ _ _ _ _ Hg Hexit).
Qed.

Lemma no_groups_still_starts_and_stops_the_pool_witness :
  ReadFile (env_of no_functions_document) "config.yaml" = ([], None) /\
  yaml_parse (env_of no_functions_document) [] = inl no_functions_document /\
  (key_functions no_functions_document = None \/
   key_functions no_functions_document = Some []) /\
  processConfig (env_of no_functions_document) "config.yaml" []
  = Return ([], []) /\
  forall ls s, run (env_of no_functions_document) 4 ls s ->
    sends ls = [] /\
    (forall l, l ∈ ls -> job_step l = false) /\
    st_main s ≠ MExit 1 /\
    (alive (st_main s) ->
     exists l s', step (env_of no_functions_document) 4 s l s') /\
    Acc (next (env_of no_functions_document) 4) s /\
    (st_main s = MExit 0 ->
     gos ls = seq 0 4 /\ LClose ∈ ls /\
     forall w, w < 4 -> w ∈ dones ls).
Proof.
  split; [reflexivity|]. split; [reflexivity|]. split; [left; reflexivity|].
  apply (no_groups_still_starts_and_stops_the_pool
           (env_of no_functions_document) 4 [] no_functions_document);
    [reflexivity | reflexivity | left; reflexivity].
Defined.

(** ** A command descriptor without [cmd] *)

Lemma missing_cmd_run :
  run (env_of missing_cmd_document) 1 missing_cmd_labels missing_cmd_state.
Proof. apply (exec_run _ _ missing_cmd_schedule). reflexivity. Qed.

(** C6, as stated, fails.  The only command descriptor of
    [missing_cmd_document] has no [cmd] key; the process with that
    configuration, on one processor, has an execution in which the goroutine
    is started, receives the pointer, calls the closure built for the
    descriptor and runs the command with the empty name. *)
Lemma missing_cmd_counterexample :
  (exists gs g ns n,
     key_functions missing_cmd_document = Some gs /\ gs !! 0 = Some g /\
     key_execdata g = Some ns /\ ns !! 0 = Some n /\ key_cmd n = None) /\
  run (env_of missing_cmd_document) 1 missing_cmd_labels missing_cmd_state /\
  gos missing_cmd_labels = [0] /\
  sends missing_cmd_labels = [0] /\
  calls 0 missing_cmd_labels = [buildFunc {| command := ""; args := ["hello"] |}] /\
  LRun 0 "" ["hello"] "" (Some "exec: no command") ∈ missing_cmd_labels /\
  alive (st_main missing_cmd_state).
Proof.
  split; [by eexists _, _, _, _|]. split; [exact missing_cmd_run|].
  split; [reflexivity|]. split; [reflexivity|]. split; [reflexivity|].
  split; [|exact I].
  apply list_elem_of_lookup. by exists 5.
Qed.

(** C6, amended.  A configuration that is read and parsed and in which the
    descriptor [j] of group [i] has no [cmd] key is accepted: [processConfig]
    returns, with one pointer per group, and closure [j] of the [execData]
    at pointer [i] is the one [buildFunc] builds for the empty command name
    and the decoded arguments of the descriptor.  The process does not end
    in [log.Fatal]; when it has exited, all [NumCPU] goroutines had been
    started and every closure of every [execData] of the graph, this one
    included, had been called; with at least one processor a live process
    can always move, and no execution goes on for ever. *)
Theorem missing_cmd_is_the_empty_command
    (E : Env) (NumCPU : nat) (c : bytes) (d : document)
    (gs : list execdataNode) (i : nat) (g : execdataNode)
    (ns : list functionNode) (j : nat) (n : functionNode) :
  ReadFile E "config.yaml" = (c, None) ->
  yaml_parse E c = inl d ->
  key_functions d = Some gs -> gs !! i = Some g ->
  key_execdata g = Some ns -> ns !! j = Some n ->
  key_cmd n = None ->
  exists eds h e,
    processConfig E "config.yaml" [] = Return (eds, h) /\
    eds = seq 0 (length gs) /\
    h !! i = Some e /\
    fs e !! j = Some (buildFunc {| command := "";
                                   args := Args (decode_functionMeta n) |}) /\
    step E NumCPU init (LConfig eds)
      (State (MLoops 0 eds) [] false (Z.of_nat NumCPU) h) /\
    forall ls s, run E NumCPU ls s ->
      st_main s ≠ MExit 1 /\
      (st_main s = MExit 0 ->
       gos ls = seq 0 NumCPU /\ jobs_done ls ≡ₚ eds /\ calls i ls = fs e) /\
      (0 < NumCPU -> alive (st_main s) -> exists l s', step E NumCPU s l s') /\
      Acc (next E NumCPU) s.
Proof.
  intros Hr Hp Hgs Hg Hns Hn Hcmd.
  pose proof (processConfig_graph E "config.yaml" [] c d Hr Hp) as Hcfg.
  simpl in Hcfg. unfold decode_functionsMeta in Hcfg. rewrite Hgs in Hcfg.
  simpl in Hcfg. rewrite !length_map in Hcfg.
  eexists _, _, (job_of (decode_execdataMeta g)).
  split; [exact Hcfg|]. split; [done|].
  split; [by rewrite !list_lookup_fmap, Hg|].
  split.
  { unfold job_of, decode_execdataMeta. rewrite Hns. simpl.
    rewrite !list_lookup_fmap, Hn. simpl.
    unfold action_of, decode_functionMeta. by rewrite Hcmd. }
  split; [by apply step_config|].
  intros ls s Hrun.
  destruct (run_good _ _ _ _ _ _ Hcfg Hrun) as [[-> ->]|Hgood].
  - split; [done|]. split; [done|].
    split; [intros; eapply run_alive_progress; eauto | apply next_wf].
  - pose proof (good_main _ _ _ _ _ Hgood) as Hm.
    split.
    { destruct (st_main s); try done. simpl in Hm. intros [= ->]. lia. }
    split.
    { intros Hexit. rewrite Hexit in Hm. destruct Hm as (_ & Hlen & _).
      destruct (good_exit_complete _ _ _ _ _ Hgood Hexit) as (_ & Hperm & _).
      split; [by rewrite (run_gos _ _ _ _ Hrun), Hlen|]. split; [done|].
      assert (Hi : i ∈ jobs_done ls).
      { rewrite Hperm. apply elem_of_seq. apply lookup_lt_Some in Hg. lia. }
      destruct (good_done _ _ _ _ _ Hgood i Hi) as (e' & He' & ->).
      rewrite !list_lookup_fmap, Hg in He'. by simplify_eq/=. }
    split; [intros; eapply run_alive_progress; eauto | apply next_wf].
Qed.

Lemma missing_cmd_is_the_empty_command_witness :
  ReadFile (env_of missing_cmd_document) "config.yaml" = ([], None) /\
  yaml_parse (env_of missing_cmd_document) [] = inl missing_cmd_document /\
  key_functions missing_cmd_document
  = Some [ {| key_execdata := Some
                [ {| key_name := Some "no command";
                     key_cmd := None;
                     key_args := Some ["hello"] |} ] |} ] /\
  key_cmd {| key_name := Some "no command";
             key_cmd := None;
             key_args := Some ["hello"] |} = None /\
  exists eds h e,
    processConfig (env_of missing_cmd_document) "config.yaml" []
    = Return (eds, h) /\
    eds = seq 0 1 /\
    h !! 0 = Some e /\
    fs e !! 0 = Some (buildFunc {| command := ""; args := ["hello"] |}) /\
    step (env_of missing_cmd_document) 1 init (LConfig eds)
      (State (MLoops 0 eds) [] false (Z.of_nat 1) h) /\
    forall ls s, run (env_of missing_cmd_document) 1 ls s ->
      st_main s ≠ MExit 1 /\
      (st_main s = MExit 0 ->
       gos ls = seq 0 1 /\ jobs_done ls ≡ₚ eds /\ calls 0 ls = fs e) /\
      (0 < 1 -> alive (st_main s) ->
       exists l s', step (env_of missing_cmd_document) 1 s l s') /\
      Acc (next (env_of missing_cmd_document) 1) s.
Proof.
  split; [reflexivity|]. split; [reflexivity|].
  split; [reflexivity|]. split; [reflexivity|].
  apply (missing_cmd_is_the_empty_command (env_of missing_cmd_document) 1 []
           missing_cmd_document
           [ {| key_execdata := Some
                  [ {| key_name := Some "no command";
                       key_cmd := None;
                       key_args := Some ["hello"] |} ] |} ]
           0
           {| key_execdata := Some
                [ {| key_name := Some "no command";
                     key_cmd := None;
                     key_args := Some ["hello"] |} ] |}
           [ {| key_name := Some "no command";
                key_cmd := None;
                key_args := Some ["hello"] |} ]
           0
           {| key_name := Some "no command";
              key_cmd := None;
              key_args := Some ["hello"] |}); reflexivity.
Defined.

(** * More on the code *)

(** ** The store of [execData] *)

(** X1.  [add] through a pointer into the store appends the closure after
    those the [execData] already holds, and changes neither another
    [execData] nor the size of the store. *)
Theorem add_appends_in_place (h : heap) (p : ptr) (e : execData) (f : execfunc) :
  h !! p = Some e ->
  add p f h !! p = Some {| fs := fs e ++ [f] |} /\
  (forall q, q ≠ p -> add p f h !! q = h !! q) /\
  length (add p f h) = length h.
Proof.
  intros He. unfold add. split; [|split].
  - by rewrite list_lookup_alter_eq, He.
  - intros q Hq. by rewrite list_lookup_alter_ne.
  - apply length_alter.
Qed.

Lemma add_appends_in_place_witness :
  [ {| fs := [] |}; {| fs := [Ret None] |} ] !! 1 = Some {| fs := [Ret None] |} /\
  add 1 (Ret (Some "failed")) [ {| fs := [] |}; {| fs := [Ret None] |} ] !! 1
  = Some {| fs := [Ret None] ++ [Ret (Some "failed")] |} /\
  (forall q, q ≠ 1 ->
     add 1 (Ret (Some "failed")) [ {| fs := [] |}; {| fs := [Ret None] |} ] !! q
     = [ {| fs := [] |}; {| fs := [Ret None] |} ] !! q) /\
  length (add 1 (Ret (Some "failed")) [ {| fs := [] |}; {| fs := [Ret None] |} ])
  = length [ {| fs := [] |}; {| fs := [Ret None] |} ].
Proof.
  split; [reflexivity|].
  apply (add_appends_in_place [ {| fs := [] |}; {| fs := [Ret None] |} ] 1
           {| fs := [Ret None] |} (Ret (Some "failed"))).
  reflexivity.
Defined.

Lemma fold_add_last (l : list execfunc) (h : heap) (d : execData) :
  fold_left (fun h' f => add (length h) f h') l (h ++ [d])
  = h ++ [ {| fs := fs d ++ l |} ].
Proof.
  revert d. induction l as [|f l IH]; intros d; simpl.
  - rewrite app_nil_r. by destruct d.
  - rewrite add_last, IH. simpl. by rewrite <- app_assoc.
Qed.

(** X2.  The pointer [newexecData] returns is not in the store it is called
    on; adding closures one after the other through it leaves, at the end of
    the store, an [execData] whose [fs] is those closures in the order they
    were added, and the store as it was before it. *)
Theorem newexecData_then_add (h : heap) (l : list execfunc) :
  h !! (newexecData h).1 = None /\
  fold_left (fun h' f => add (newexecData h).1 f h') l (newexecData h).2
  = h ++ [ {| fs := l |} ].
Proof.
  simpl. split; [by apply lookup_ge_None|]. by rewrite fold_add_last.
Qed.

(** ** [processConfig] *)

(** X3.  [processConfig] ends in [log.Fatal] in two cases only: when
    [config.yaml] cannot be read, with the error of the read as message, and
    when it is read but cannot be decoded, with the error of the decoder
    after the text of the format string.  A document that is read and
    parsed is never refused, whatever keys it lacks. *)
Theorem processConfig_Fatal_iff (E : Env) (config : string) (h : heap) (msg : string) :
  processConfig E config h = Fatal msg <->
  (exists c, ReadFile E "config.yaml" = (c, Some msg)) \/
  (exists c e, ReadFile E "config.yaml" = (c, None) /\
               yaml_parse E c = inr e /\
               msg = "Error decoding yaml file " +:+ e).
Proof.
  unfold processConfig, readYaml, Unmarshal.
  destruct (ReadFile E "config.yaml") as [c [e|]] eqn:Hr.
  - split.
    + intros [= ->]. left. by exists c.
    + intros [[c' [= -> ->]]|(c' & e' & [=] & _)]. done.
  - destruct (yaml_parse E c) as [d|e] eqn:Hp.
    + split; [done|].
      intros [[c' [=]]|(c' & e' & [= ->] & Hp' & _)]. congruence.
    + split.
      * intros [= <-]. right. by exists c, e.
      * intros [[c' [=]]|(c' & e' & [= <-] & Hp' & ->)]. congruence.
Qed.

(** X4.  Called on any store, [processConfig] leaves every [execData] of
    that store as it was; the pointers it returns are new, consecutive and
    as many as the [execData] it added. *)
Theorem processConfig_keeps_the_store
    (E : Env) (config : string) (h : heap) (eds : list ptr) (h' : heap) :
  processConfig E config h = Return (eds, h') ->
  (forall q e, h !! q = Some e -> h' !! q = Some e) /\
  eds = seq (length h) (length eds) /\
  length h' = length h + length eds /\
  (forall p, p ∈ eds -> h !! p = None /\ is_Some (h' !! p)).
Proof.
  intros (f & -> & ->)%processConfig_inv. rewrite length_seq.
  split; [intros q e Hq; by apply lookup_app_l_Some|].
  split; [done|].
  split; [by rewrite length_app, length_map|].
  intros p Hp%elem_of_seq. split.
  - apply lookup_ge_None. lia.
  - apply lookup_lt_is_Some. rewrite length_app, length_map. lia.
Qed.

Lemma processConfig_keeps_the_store_witness :
  processConfig (env_of sample_document) "config.yaml" [ {| fs := [Ret None] |} ]
  = Return ([1; 2],
            [ {| fs := [Ret None] |};
              {| fs := [ buildFunc {| command := "kubectl"; args := ["get"; "ns"] |} ] |};
              {| fs := [ buildFunc {| command := "echo"; args := ["hi there"] |};
                         buildFunc {| command := "ls"; args := ["."] |} ] |} ]) /\
  (forall q e,
     [ {| fs := [Ret None] |} ] !! q = Some e ->
     [ {| fs := [Ret None] |};
       {| fs := [ buildFunc {| command := "kubectl"; args := ["get"; "ns"] |} ] |};
       {| fs := [ buildFunc {| command := "echo"; args := ["hi there"] |};
                  buildFunc {| command := "ls"; args := ["."] |} ] |} ] !! q
     = Some e) /\
  [1; 2] = seq (length [ {| fs := [Ret None] |} ]) (length [1; 2]) /\
  length [ {| fs := [Ret None] |};
           {| fs := [ buildFunc {| command := "kubectl"; args := ["get"; "ns"] |} ] |};
           {| fs := [ buildFunc {| command := "echo"; args := ["hi there"] |};
                      buildFunc {| command := "ls"; args := ["."] |} ] |} ]
  = length [ {| fs := [Ret None] |} ] + length [1; 2] /\
  (forall p, p ∈ [1; 2] ->
     [ {| fs := [Ret None] |} ] !! p = None /\
     is_Some ([ {| fs := [Ret None] |};
                {| fs := [ buildFunc {| command := "kubectl"; args := ["get"; "ns"] |} ] |};
                {| fs := [ buildFunc {| command := "echo"; args := ["hi there"] |};
                           buildFunc {| command := "ls"; args := ["."] |} ] |} ] !! p)).
Proof.
  split; [reflexivity|].
  apply (processConfig_keeps_the_store (env_of sample_document) "config.yaml"
           [ {| fs := [Ret None] |} ]).
  reflexivity.
Defined.

(** ** The pool *)

Lemma held_length_le (pool : list wstate) : length (held pool) <= length pool.
Proof.
  unfold held. induction pool as [|ws pool IH]; [done|].
  csimpl. destruct (holds ws); csimpl; lia.
Qed.

Lemma good_pool_le NumCPU eds h ls s :
  good NumCPU eds h ls s -> length (st_pool s) <= NumCPU.
Proof.
  intros [_ Hm _ _ _ _ _ _ _]. destruct s as [[|i rest| |c] pool cl wg h'];
    simpl in *; try done; lia.
Qed.

(** X5.  In every execution there are never more than [NumCPU] goroutines,
    so never more than [NumCPU] [execData] being worked on, and no two
    goroutines work on the same [execData] at the same time. *)
Theorem pool_is_bounded_and_shares_no_job
    (E : Env) (NumCPU : nat) (ls : list label) (s : state) :
  run E NumCPU ls s ->
  length (st_pool s) <= NumCPU /\
  length (held (st_pool s)) <= NumCPU /\
  NoDup (held (st_pool s)) /\
  forall w w' ws ws' p,
    st_pool s !! w = Some ws -> st_pool s !! w' = Some ws' ->
    holds ws = Some p -> holds ws' = Some p -> w = w'.
Proof.
  intros [[-> ->]|[(msg & _ & -> & ->)|(eds & h & ls' & Hcfg & -> & Hg)]]%run_cases.
  - simpl. split; [lia|]. split; [lia|]. split; [constructor|]. intros. done.
  - simpl. split; [lia|]. split; [lia|]. split; [constructor|]. intros. done.
  - pose proof (processConfig_NoDup _ _ _ _ _ Hcfg) as Hnd.
    pose proof (good_pool_le _ _ _ _ _ Hg) as Hle.
    pose proof (held_length_le (st_pool s)).
    split; [done|]. split; [lia|]. split.
    + pose proof (good_sends_NoDup _ _ _ Hnd _ _ Hg) as Hs.
      rewrite (good_jobs _ _ _ _ _ Hg) in Hs.
      by apply NoDup_app in Hs as (_ & _ & ?).
    + intros w w' ws ws' p. by apply (good_held_inj _ _ _ Hnd _ _ _ _ _ _ _ Hg).
Qed.

Lemma pool_is_bounded_and_shares_no_job_witness :
  run (env_of sample_document) 2 sample_labels sample_state /\
  length (st_pool sample_state) <= 2 /\
  length (held (st_pool sample_state)) <= 2 /\
  NoDup (held (st_pool sample_state)) /\
  forall w w' ws ws' p,
    st_pool sample_state !! w = Some ws -> st_pool sample_state !! w' = Some ws' ->
    holds ws = Some p -> holds ws' = Some p -> w = w'.
Proof.
  split; [exact sample_run|].
  apply (pool_is_bounded_and_shares_no_job (env_of sample_document) 2
           sample_labels sample_state).
  exact sample_run.
Defined.

(** ** The [sync.WaitGroup] and the channel *)

Lemma wstep_exited w ws l ws' : wstep w ws l ws' -> exited ws = 0 /\ exited ws' = 0.
Proof. by destruct 1. Qed.

Lemma wstep_dones w ws l ws' ls : wstep w ws l ws' -> dones (ls ++ [l]) = dones ls.
Proof. intros Hws. rewrite dones_snoc. destruct Hws; by rewrite app_nil_r. Qed.

Lemma run_dones (E : Env) (NumCPU : nat) ls s :
  run E NumCPU ls s ->
  NoDup (dones ls) /\ length (dones ls) = count_exited (st_pool s).
Proof.
  unfold run, steps. intros Hrun. remember init as s0 eqn:Hs0.
  induction Hrun as [s|s ls s1 l s2 Hrun IH Hstep].
  - subst. split; [constructor | done].
  - specialize (IH Hs0). subst s. destruct IH as [Hnd Hlen].
    assert (Hdone : forall w, st_pool s1 !! w = Some WDone -> w ∉ dones ls).
    { intros w Hw Hin.
      destruct (run_cases _ _ _ _ Hrun)
        as [[-> ->]|[(msg & _ & -> & ->)|(eds & h & ls' & _ & -> & Hg)]];
        try done.
      apply (good_dones _ _ _ _ _ Hg) in Hin. congruence. }
    destruct Hstep as
      [ | | i rest pool cl wg h Hi | i p rest pool wg h w e Hi Hw He
      | | m pool wg h w Hal Hw | m pool cl wg h w Hal Hw
      | m pool cl wg h w ws l ws' Hal Hw Hws | ]; simpl in *;
      try (rewrite dones_snoc, app_nil_r; by split).
    + rewrite dones_snoc, app_nil_r, count_exited_snoc. by split.
    + rewrite dones_snoc, app_nil_r. split; [done|].
      pose proof (count_exited_insert pool w _ (WFs p 0 (fs e)) Hw).
      simpl in *. lia.
    + rewrite dones_snoc, app_nil_r. split; [done|].
      pose proof (count_exited_insert pool w _ WDone Hw). simpl in *. lia.
    + rewrite dones_snoc. split.
      * apply NoDup_app. split; [done|]. split; [|apply NoDup_singleton].
        intros x Hx Hxw%list_elem_of_singleton. subst x. by apply (Hdone w).
      * rewrite length_app. simpl.
        pose proof (count_exited_insert pool w _ WExit Hw). simpl in *. lia.
    + rewrite (wstep_dones _ _ _ _ _ Hws). split; [done|].
      destruct (wstep_exited _ _ _ _ Hws) as [Hx Hx'].
      pose proof (count_exited_insert pool w _ ws' Hw). lia.
Qed.

(** X6.  In every execution the goroutines that have called [wg.Done()] are
    pairwise distinct (none calls it twice) and at most [NumCPU]; the
    counter of the [sync.WaitGroup] is never negative and never above
    [NumCPU]; once [processConfig] has returned it is [NumCPU] less the
    number of calls of [wg.Done()]. *)
Theorem waitgroup_counts_the_goroutines_left
    (E : Env) (NumCPU : nat) (ls : list label) (s : state) :
  run E NumCPU ls s ->
  NoDup (dones ls) /\
  length (dones ls) <= NumCPU /\
  (0 <= st_wg s <= Z.of_nat NumCPU)%Z /\
  (forall eds, LConfig eds ∈ ls ->
     st_wg s = (Z.of_nat NumCPU - Z.of_nat (length (dones ls)))%Z).
Proof.
  intros Hrun. destruct (run_dones _ _ _ _ Hrun) as [Hnd Hlen].
  split; [done|].
  destruct (run_cases _ _ _ _ Hrun)
    as [[-> ->]|[(msg & _ & -> & ->)|(eds & h & ls' & _ & -> & Hg)]].
  - simpl. split; [lia|]. split; [lia|]. intros eds Hin.
    by apply elem_of_nil in Hin.
  - simpl. split; [lia|]. split; [lia|]. intros eds Hin.
    by apply list_elem_of_singleton in Hin.
  - pose proof (good_wg _ _ _ _ _ Hg) as Hwg.
    pose proof (good_pool_le _ _ _ _ _ Hg).
    pose proof (count_exited_le (st_pool s)).
    rewrite Hlen. split; [lia|]. split; [lia|]. intros _ _. done.
Qed.

Lemma waitgroup_counts_the_goroutines_left_witness :
  run (env_of sample_document) 2 sample_labels sample_state /\
  NoDup (dones sample_labels) /\
  length (dones sample_labels) <= 2 /\
  (0 <= st_wg sample_state <= Z.of_nat 2)%Z /\
  (forall eds, LConfig eds ∈ sample_labels ->
     st_wg sample_state
     = (Z.of_nat 2 - Z.of_nat (length (dones sample_labels)))%Z).
Proof.
  split; [exact sample_run|].
  apply (waitgroup_counts_the_goroutines_left (env_of sample_document) 2
           sample_labels sample_state).
  exact sample_run.
Defined.

Lemma step_LClose_closed (E : Env) (NumCPU : nat) s s' :
  step E NumCPU s LClose s' -> st_closed s' = true.
Proof.
  intros Hstep. remember LClose as l eqn:Hl.
  destruct Hstep as [ | | | | | | |? ? ? ? ? ? ? ? ? ? ? Hws| ]; try done.
  subst. inversion Hws.
Qed.

Lemma run_LClose_closed (E : Env) (NumCPU : nat) ls s :
  run E NumCPU ls s -> LClose ∈ ls -> st_closed s = true.
Proof.
  unfold run, steps. intros Hrun. remember init as s0 eqn:Hs0.
  induction Hrun as [s|s ls s1 l s2 Hrun IH Hstep].
  - intros Hin. by apply elem_of_nil in Hin.
  - specialize (IH Hs0). intros [Hin|Hin%list_elem_of_singleton]%elem_of_app.
    + specialize (IH Hin). destruct Hstep; simpl in *; done.
    + subst l. by eapply step_LClose_closed.
Qed.

Lemma step_LClose_source (E : Env) (NumCPU : nat) s s' :
  step E NumCPU s LClose s' -> exists i, st_main s = MLoops i [].
Proof.
  intros Hstep. remember LClose as l eqn:Hl.
  destruct Hstep as [ | | | | | | |? ? ? ? ? ? ? ? ? ? ? Hws| ]; try done.
  - by eexists.
  - subst. inversion Hws.
Qed.

Lemma step_LSend_source (E : Env) (NumCPU : nat) s p w s' :
  step E NumCPU s (LSend p w) s' ->
  exists i rest, st_main s = MLoops i (p :: rest) /\ ¬ i < NumCPU /\
                 st_pool s !! w = Some WRange.
Proof.
  intros Hstep. remember (LSend p w) as l eqn:Hl.
  destruct Hstep as [ | | |i p0 rest pool wg h w0 e Hi Hw He| | |
                    |? ? ? ? ? ? ? ? ? ? ? Hws| ]; try done.
  - simplify_eq. by eexists _, _.
  - subst. inversion Hws.
Qed.

(** X7.  In every execution [close(edCh)] happens at most once, and a
    goroutine finds the channel closed only after [close(edCh)] has
    happened. *)
Theorem channel_is_closed_once_and_seen_closed_after
    (E : Env) (NumCPU : nat) (ls : list label) (s : state) :
  run E NumCPU ls s ->
  (forall l1 l2, ls = l1 ++ LClose :: l2 -> (LClose ∉ l1) /\ (LClose ∉ l2)) /\
  (forall l1 w l2, ls = l1 ++ LClosed w :: l2 -> LClose ∈ l1).
Proof.
  intros Hrun.
  assert (Hfirst : forall l1 l2, ls = l1 ++ LClose :: l2 -> LClose ∉ l1).
  { intros l1 l2 -> Hin.
    apply run_step_at in Hrun as (s1 & s2 & Hr1 & Hstep & _).
    pose proof (run_LClose_closed _ _ _ _ Hr1 Hin) as Hcl.
    apply step_LClose_source in Hstep as [i Hm].
    destruct (run_cases _ _ _ _ Hr1)
      as [[-> ->]|[(msg & _ & -> & ->)|(eds & h & ls' & _ & -> & Hg)]];
      try done.
    pose proof (good_main _ _ _ _ _ Hg) as Hok. rewrite Hm in Hok.
    destruct Hok as (_ & _ & Hcl' & _). congruence. }
  split.
  - intros l1 l2 Hls. split; [by eapply Hfirst|].
    intros (l2a & l2b & ->)%list_elem_of_split.
    apply (Hfirst (l1 ++ LClose :: l2a) l2b).
    + by rewrite <- app_assoc.
    + apply elem_of_app. right. by left.
  - intros l1 w l2 ->.
    apply run_step_at in Hrun as (s1 & s2 & Hr1 & Hstep & _).
    apply step_LClosed_inv in Hstep. by eapply run_closed_LClose.
Qed.

Lemma channel_is_closed_once_and_seen_closed_after_witness :
  run (env_of sample_document) 2 sample_labels sample_state /\
  (forall l1 l2, sample_labels = l1 ++ LClose :: l2 ->
     (LClose ∉ l1) /\ (LClose ∉ l2)) /\
  (forall l1 w l2, sample_labels = l1 ++ LClosed w :: l2 -> LClose ∈ l1).
Proof.
  split; [exact sample_run|].
  apply (channel_is_closed_once_and_seen_closed_after (env_of sample_document) 2
           sample_labels sample_state).
  exact sample_run.
Defined.

(** X8.  In every execution a pointer is sent only once all [NumCPU]
    goroutines have been started, and it is received by one of them that is
    at its receive. *)
Theorem nothing_is_sent_before_the_pool_is_started
    (E : Env) (NumCPU : nat) (ls : list label) (s : state)
    (l1 : list label) (p : ptr) (w : nat) (l2 : list label) :
  run E NumCPU ls s ->
  ls = l1 ++ LSend p w :: l2 ->
  gos l1 = seq 0 NumCPU /\ w < NumCPU /\ (LClose ∉ l1).
Proof.
  intros Hrun ->.
  apply run_step_at in Hrun as (s1 & s2 & Hr1 & Hstep & _).
  pose proof Hstep as (i & rest & Hm & Hi & Hw)%step_LSend_source.
  destruct (run_cases _ _ _ _ Hr1)
    as [[-> ->]|[(msg & _ & -> & ->)|(eds & h & ls' & _ & -> & Hg)]];
    try done.
  pose proof (good_main _ _ _ _ _ Hg) as Hok. rewrite Hm in Hok.
  destruct Hok as (Hlen & Hle & Hcl & _).
  assert (length (st_pool s1) = NumCPU) as Hpool by lia.
  split; [by rewrite (run_gos _ _ _ _ Hr1), Hpool|].
  split; [rewrite <- Hpool; by eapply lookup_lt_Some|].
  intros Hin. pose proof (run_LClose_closed _ _ _ _ Hr1 Hin). congruence.
Qed.

Lemma nothing_is_sent_before_the_pool_is_started_witness :
  run (env_of sample_document) 2 sample_labels sample_state /\
  sample_labels
  = [LConfig [0; 1]; LGo 0; LGo 1; LSend 0 0] ++ LSend 1 1 :: drop 5 sample_labels /\
  gos [LConfig [0; 1]; LGo 0; LGo 1; LSend 0 0] = seq 0 2 /\ 1 < 2 /\
  (LClose ∉ [LConfig [0; 1]; LGo 0; LGo 1; LSend 0 0]).
Proof.
  split; [exact sample_run|]. split; [reflexivity|].
  apply (nothing_is_sent_before_the_pool_is_started (env_of sample_document) 2
           sample_labels sample_state
           [LConfig [0; 1]; LGo 0; LGo 1; LSend 0 0] 1 1 (drop 5 sample_labels));
    [exact sample_run | reflexivity].
Defined.

(** ** The inner loop of [executor] *)

Lemma path_cons {S L} (R : S -> L -> S -> Prop) s l s1 ls s' :
  R s l s1 -> path R s1 ls s' -> path R s (l :: ls) s'.
Proof.
  intros Hr Hp. change (l :: ls) with ([l] ++ ls).
  eapply path_app; [by apply path_one | done].
Qed.

Lemma events_of_app l1 l2 : events_of (l1 ++ l2) = events_of l1 ++ events_of l2.
Proof. unfold events_of. by rewrite omap_app. Qed.

Lemma answers_of_app l1 l2 : answers_of (l1 ++ l2) = answers_of l1 ++ answers_of l2.
Proof. unfold answers_of. by rewrite omap_app. Qed.

Lemma wpath_WRange w ls ws : path (wstep w) WRange ls ws -> ls = [].
Proof.
  destruct ls as [|l ls]; [done|].
  intros (ws1 & Hs & _)%path_cons_inv. inversion Hs.
Qed.

(** A call that is followed to the end of the loop returns on the way. *)
Lemma wpath_call_split w p k (body : execfunc) rest ls :
  path (wstep w) (WCall p k body rest) ls WRange ->
  exists l1 r l2,
    ls = l1 ++ LRet w p k r :: l2 /\
    path (bstep w) body l1 (Ret r) /\
    path (wstep w)
      (match r with
       | Some e => WErr p k e rest
       | None => WFs p (S k) rest
       end) l2 WRange.
Proof.
  revert ls. induction body as [r|s body IH|c a kont IH]; intros ls Hp;
    (destruct ls as [|l ls]; [by apply path_nil_inv in Hp|]);
    apply path_cons_inv in Hp as (ws1 & Hs & Hp); inversion Hs; subst.
  - exists [], None, ls. split; [done|]. split; [constructor | done].
  - exists [], (Some e), ls. split; [done|]. split; [constructor | done].
  - destruct (IH _ Hp) as (l1 & r & l2 & -> & Hb & Hrest).
    exists (LWrite w s :: l1), r, l2. split; [done|]. split; [|done].
    eapply path_cons; [constructor | done].
  - destruct (IH _ _ _ Hp) as (l1 & r & l2 & -> & Hb & Hrest).
    exists (LRun w c a out err :: l1), r, l2. split; [done|]. split; [|done].
    eapply path_cons; [constructor | done].
Qed.

(** X9.  What a goroutine does from the head of the inner loop to its end is
    what the loop does run on its own: the writes and runs among its labels
    are the events of [range_fs] on the closures left to call, against the
    operating system that gives the answers the goroutine got, and all these
    answers are used. *)
Theorem goroutine_follows_the_inner_loop
    (w : nat) (p : ptr) (k : nat) (l : list execfunc) (ls : list label)
    (os : list (string * option error)) :
  path (wstep w) (WFs p k l) ls WRange ->
  range_fs scripted l (answers_of ls ++ os) = (events_of ls, os).
Proof.
  revert k ls os. induction l as [|f rest IH]; intros k ls os Hp;
    (destruct ls as [|x ls]; [by apply path_nil_inv in Hp|]);
    apply path_cons_inv in Hp as (ws1 & Hs & Hp); inversion Hs; subst.
  - apply wpath_WRange in Hp as ->. done.
  - apply wpath_call_split in Hp as (l1 & r & l2 & -> & Hb & Hrest).
    change (LCall w p k f :: l1 ++ LRet w p k r :: l2)
      with ([LCall w p k f] ++ l1 ++ [LRet w p k r] ++ l2).
    rewrite !answers_of_app, !events_of_app.
    change (answers_of [LCall w p k f]) with (@nil (string * option error)).
    change (answers_of [LRet w p k r]) with (@nil (string * option error)).
    change (events_of [LCall w p k f]) with (@nil event).
    change (events_of [LRet w p k r]) with (@nil event).
    simpl. rewrite <- app_assoc.
    rewrite (bpath_interp _ _ _ _ (answers_of l2 ++ os) Hb).
    destruct r as [e|].
    + destruct l2 as [|y l2]; [by apply path_nil_inv in Hrest|].
      apply path_cons_inv in Hrest as (ws2 & Hs2 & Hrest).
      inversion Hs2; subst.
      change (answers_of (LWrite w (e +:+ nl) :: l2)) with (answers_of l2).
      change (events_of (LWrite w (e +:+ nl) :: l2))
        with (Stdout (e +:+ nl) :: events_of l2).
      by rewrite (IH _ _ _ Hrest).
    + by rewrite (IH _ _ _ Hrest).
Qed.

Lemma goroutine_follows_the_inner_loop_witness :
  path (wstep 3) (WFs 7 0 [buildFunc {| command := "ls"; args := ["."] |}])
    [ LCall 3 7 0 (buildFunc {| command := "ls"; args := ["."] |});
      LWrite 3 ("executing " +:+ "ls" +:+ nl);
      LRun 3 "ls" ["."] "" (Some "exit status 2");
      LRet 3 7 0 (Some "exit status 2");
      LWrite 3 ("exit status 2" +:+ nl);
      LJob 3 7 ] WRange /\
  range_fs scripted [buildFunc {| command := "ls"; args := ["."] |}]
    ([("", Some "exit status 2")] ++ [("late", None)])
  = ([ Stdout ("executing " +:+ "ls" +:+ nl); Spawn "ls" ["."];
       Stdout ("exit status 2" +:+ nl) ],
     [("late", None)]).
Proof.
  assert (Hp : path (wstep 3)
                 (WFs 7 0 [buildFunc {| command := "ls"; args := ["."] |}])
                 [ LCall 3 7 0 (buildFunc {| command := "ls"; args := ["."] |});
                   LWrite 3 ("executing " +:+ "ls" +:+ nl);
                   LRun 3 "ls" ["."] "" (Some "exit status 2");
                   LRet 3 7 0 (Some "exit status 2");
                   LWrite 3 ("exit status 2" +:+ nl);
                   LJob 3 7 ] WRange).
  { eapply path_cons; [apply wstep_call|].
    eapply path_cons; [apply wstep_write|].
    eapply path_cons; [apply wstep_run|].
    eapply path_cons; [apply wstep_ret_err|].
    eapply path_cons; [apply wstep_println|].
    eapply path_cons; [apply wstep_job|]. apply path_nil. }
  split; [exact Hp|].
  exact (goroutine_follows_the_inner_loop 3 7 0
           [buildFunc {| command := "ls"; args := ["."] |}] _
           [("late", None)] Hp).
Defined.

Lemma spawns_app l1 l2 : spawns (l1 ++ l2) = spawns l1 ++ spawns l2.
Proof. unfold spawns. by rewrite omap_app. Qed.

Lemma stdout_of_app l1 l2 : stdout_of (l1 ++ l2) = stdout_of l1 ++ stdout_of l2.
Proof. unfold stdout_of. by rewrite omap_app. Qed.

Lemma spawns_Stdout s l : spawns (Stdout s :: l) = spawns l.
Proof. reflexivity. Qed.

Lemma spawns_Spawn c a l : spawns (Spawn c a :: l) = (c, a) :: spawns l.
Proof. reflexivity. Qed.

Lemma stdout_of_Stdout s l : stdout_of (Stdout s :: l) = s :: stdout_of l.
Proof. reflexivity. Qed.

Lemma stdout_of_Spawn c a l : stdout_of (Spawn c a :: l) = stdout_of l.
Proof. reflexivity. Qed.

(** X10.  The inner loop over the closures built from a list of [cli], run
    against any operating system, runs the command of every [cli] with its
    arguments exactly once and in the order of the list, whichever of them
    fail; and it writes twice per [cli]: the notice, then the captured
    output or the error. *)
Theorem inner_loop_runs_every_command_once {OS : Type}
    (exec_Run : string -> list string -> OS -> string * option error * OS)
    (cs : list cli) (os : OS) :
  spawns (range_fs exec_Run (map buildFunc cs) os).1
  = map (fun c => (command c, args c)) cs /\
  length (stdout_of (range_fs exec_Run (map buildFunc cs) os).1)
  = 2 * length cs.
Proof.
  revert os. induction cs as [|c cs IH]; intros os; [done|].
  simpl. destruct (exec_Run (command c) (args c) os) as [[out [e|]] os1];
    simpl; specialize (IH os1);
    destruct (range_fs exec_Run (map buildFunc cs) os1) as [evs os2];
    simpl in *; destruct IH as [IHs IHl];
    rewrite !spawns_Stdout, spawns_Spawn, ?spawns_Stdout,
      ?stdout_of_Stdout, ?stdout_of_Spawn, IHs, IHl;
    (split; [done | lia]).
Qed.

Lemma wlabels_app w l1 l2 : wlabels w (l1 ++ l2) = wlabels w l1 ++ wlabels w l2.
Proof. unfold wlabels. by rewrite filter_app. Qed.

Lemma wlabels_own w l ls :
  worker_of l = Some w -> wlabels w (l :: ls) = l :: wlabels w ls.
Proof. intros Hl. unfold wlabels. by rewrite filter_cons_True. Qed.

Lemma wlabels_elem w l ls : l ∈ wlabels w ls -> l ∈ ls.
Proof. unfold wlabels. by intros [_ ?]%list_elem_of_filter. Qed.

(** A goroutine that works on [p] keeps working on it until the inner loop
    over it ends. *)
Lemma wpath_holds h w p ws0 ls ws :
  path (wtrans h w) ws0 ls ws ->
  holds ws0 = Some p ->
  LJob w p ∈ ls \/ holds ws = Some p.
Proof.
  intros Hp Hholds. induction Hp as [|ws0 ls ws1 l ws2 _ IH Ht]; [by right|].
  destruct (IH Hholds) as [Hin|Hh].
  - left. apply elem_of_app. by left.
  - destruct Ht as [| | |ws1 l ws2 Hs]; try done.
    destruct Hs; simpl in *; simplify_eq; try (by right).
    left. apply elem_of_app. right. by left.
Qed.

(** X11.  A goroutine takes one [execData] at a time: between two receives
    of the same goroutine, the inner loop over the [execData] received first
    has ended. *)
Theorem goroutine_takes_one_job_at_a_time
    (E : Env) (NumCPU : nat) (ls : list label) (s : state)
    (l1 l2 l3 : list label) (w : nat) (p p' : ptr) :
  run E NumCPU ls s ->
  ls = l1 ++ LSend p w :: l2 ++ LSend p' w :: l3 ->
  LJob w p ∈ l2.
Proof.
  intros Hrun ->.
  replace (l1 ++ LSend p w :: l2 ++ LSend p' w :: l3)
    with ((l1 ++ LSend p w :: l2) ++ LSend p' w :: l3) in Hrun
    by (by rewrite <- app_assoc).
  apply run_step_at in Hrun as (s1 & s2 & Hr1 & Hstep & _).
  apply step_LSend_source in Hstep as (i & rest & Hm & _ & Hw).
  destruct (run_cases _ _ _ _ Hr1)
    as [[Hnil _]|[(msg & _ & Hf & _)|(eds & h & ls' & Hcfg & _ & _)]].
  - by destruct l1.
  - destruct l1 as [|x [|y l1]]; simplify_eq/=.
  - pose proof (run_pool_paths _ _ _ _ _ _ Hcfg Hr1) as [Hpaths _].
    specialize (Hpaths _ _ Hw).
    rewrite wlabels_app, wlabels_own in Hpaths by done.
    apply path_app_inv in Hpaths as (ws1 & _ & Hpaths).
    apply path_cons_inv in Hpaths as (ws2 & Ht & Hpaths).
    inversion Ht as [? e He| | |? ? ? Hs]; subst; [|inversion Hs].
    destruct (wpath_holds _ _ p _ _ _ Hpaths eq_refl) as [Hin|Hh]; [|done].
    by eapply wlabels_elem.
Qed.

Lemma goroutine_takes_one_job_at_a_time_witness :
  run (env_of sample_document) 1
    [ LConfig [0; 1]; LGo 0; LSend 0 0;
      LCall 0 0 0 (buildFunc {| command := "kubectl"; args := ["get"; "ns"] |});
      LWrite 0 ("executing " +:+ "kubectl" +:+ nl);
      LRun 0 "kubectl" ["get"; "ns"] "" (Some "exit status 1");
      LRet 0 0 0 (Some "exit status 1");
      LWrite 0 ("exit status 1" +:+ nl);
      LJob 0 0; LSend 1 0 ]
    (State (MLoops 1 [])
       [ WFs 1 0 [ buildFunc {| command := "echo"; args := ["hi there"] |};
                   buildFunc {| command := "ls"; args := ["."] |} ] ]
       false 1 (st_heap sample_state)) /\
  LJob 0 0 ∈
    [ LCall 0 0 0 (buildFunc {| command := "kubectl"; args := ["get"; "ns"] |});
      LWrite 0 ("executing " +:+ "kubectl" +:+ nl);
      LRun 0 "kubectl" ["get"; "ns"] "" (Some "exit status 1");
      LRet 0 0 0 (Some "exit status 1");
      LWrite 0 ("exit status 1" +:+ nl);
      LJob 0 0 ].
Proof.
  assert (Hrun : run (env_of sample_document) 1
    [ LConfig [0; 1]; LGo 0; LSend 0 0;
      LCall 0 0 0 (buildFunc {| command := "kubectl"; args := ["get"; "ns"] |});
      LWrite 0 ("executing " +:+ "kubectl" +:+ nl);
      LRun 0 "kubectl" ["get"; "ns"] "" (Some "exit status 1");
      LRet 0 0 0 (Some "exit status 1");
      LWrite 0 ("exit status 1" +:+ nl);
      LJob 0 0; LSend 1 0 ]
    (State (MLoops 1 [])
       [ WFs 1 0 [ buildFunc {| command := "echo"; args := ["hi there"] |};
                   buildFunc {| command := "ls"; args := ["."] |} ] ]
       false 1 (st_heap sample_state))).
  { apply (exec_run _ _
             [ Main 0; Main 0; Main 0; Worker 0 "" None; Worker 0 "" None;
               Worker 0 "" (Some "exit status 1"); Worker 0 "" None;
               Worker 0 "" None; Worker 0 "" None; Main 0 ]).
    reflexivity. }
  split; [exact Hrun|].
  exact (goroutine_takes_one_job_at_a_time (env_of sample_document) 1 _ _
           [LConfig [0; 1]; LGo 0]
           [ LCall 0 0 0 (buildFunc {| command := "kubectl"; args := ["get"; "ns"] |});
             LWrite 0 ("executing " +:+ "kubectl" +:+ nl);
             LRun 0 "kubectl" ["get"; "ns"] "" (Some "exit status 1");
             LRet 0 0 0 (Some "exit status 1");
             LWrite 0 ("exit status 1" +:+ nl);
             LJob 0 0 ]
           [] 0 0 1 Hrun eq_refl).
Defined.
